(** * Core/MemoryManager.js: the asset cache of roBrowserLegacy

    A shallow embedding of the memory manager and the proofs of its
    specification.  The source file holds two versions of the module:

    - the _pooled_ version ([Module Pooled]), which recycles [MemoryItem]
      objects through [_memoryItemPool] and collects [keysToDelete] before it
      evicts; it uses a variable [_lastAccessTime] in [get], [clean] and
      [remove] that it never declares, so these calls throw a
      [ReferenceError] when they reach it;
    - the _plain_ version ([Module Plain]), which allocates a [MemoryItem] per
      slot, exports [updateAccessTime] and evicts while it iterates [_memory].

    Both are embedded over one world: the module variables, the store of
    [MemoryItem] objects (so that an object shared between the pool and the map
    would be visible), the WebGL context and the log of the calls that leave
    the module (listeners, [gl.isTexture], [gl.deleteTexture],
    [URL.revokeObjectURL]).  A call of the pooled version that can throw
    yields its completion (returned or thrown) and the world it leaves.

    Conventions.  Times ([now], [Date.now()], the timestamps) are integers.
    A listener is known by its identity and its invocation is logged with its
    argument; what the listener does next is not part of a call.  The WebGL
    context [gl] that [clean] and [remove] receive is the one of the world.
    The timer of the pooled version ([setInterval] calling [gc()] every
    minute) reads and writes none of the module's variables and is left
    out. *)

From Stdlib Require Import ZArith String Ascii List Bool Lia.
From stdpp Require Import gmap strings list fin_maps.
Import ListNotations.

Local Open Scope string_scope.
Local Open Scope Z_scope.

(** ** JavaScript values handed to the cache *)

(** A [WebGLTexture] and a listener function are objects; only their
    identity matters here. *)
Definition texture := nat.
Definition callback := nat.

(** One frame of a sprite: [frame.texture] is a texture or is missing. *)
Record Frame := { frame_texture : option texture }.

(** A decoded sprite or palette: [file.frames] is an array or is missing,
    [file.texture] is a texture or is missing. *)
Record File := { file_frames : option (list Frame); file_texture : option texture }.

(** The payloads the loader stores: the empty values, primitives (numbers are
    integers here), strings (text, or a blob URL) and decoded files. *)
Inductive value :=
| VUndefined
| VNull
| VBool (b : bool)
| VNum (n : Z)
| VStr (s : string)
| VFile (f : File).

(** JavaScript's ToBoolean. *)
Definition truthy (v : value) : bool :=
  match v with
  | VUndefined | VNull => false
  | VBool b => b
  | VNum n => negb (n =? 0)
  | VStr s => negb (s =? "")%string
  | VFile _ => true
  end.

(** [file.frames]: only a decoded file has the property. *)
Definition frames (file : value) : option (list Frame) :=
  match file with VFile f => file_frames f | _ => None end.

(** [file.texture]. *)
Definition texture_of (file : value) : option texture :=
  match file with VFile f => file_texture f | _ => None end.

(** [file.match && file.match(/^blob\:/)] (and [file.match?.(/^blob\:/)]):
    only strings have a [match] method. *)
Definition match_blob (file : value) : bool :=
  match file with VStr s => String.prefix "blob:" s | _ => false end.

(** What leaves the module, in the order it happens. *)
Inductive event :=
| Call (f : callback) (arg : value)
| IsTexture (t : texture)
| DeleteTexture (t : texture)
| RevokeObjectURL (url : string).

(** A comparison [x < y] whose left operand may be [undefined]:
    [undefined < y] is [false]. *)
Definition js_lt (x : option Z) (y : Z) : bool :=
  match x with
  | Some t => t <? y
  | None => false
  end.

(** ** Core/MemoryItem *)

Module MemoryItem.

Inductive EntryState := Pending | Loaded | Error.

(** The two event names of [addEventListener]. *)
Inductive kind := LoadEvent | ErrorEvent.

Definition kind_eqb (a b : kind) : bool :=
  match a, b with
  | LoadEvent, LoadEvent | ErrorEvent, ErrorEvent => true
  | _, _ => false
  end.

(** Modelled from the spec: the class [MemoryItem] of Core/MemoryItem.js,
    which the manager imports.  A slot has a state, a payload that is
    present only once the state is not [Pending], and the ordered sequence
    of its waiting listeners. *)
Record t := mk {
  state : EntryState;
  payload : value;
  listeners : list (kind * callback)
}.

(** Modelled from the spec: [new MemoryItem()], a slot is created
    [Pending], without payload and without listeners. *)
Definition new : t := mk Pending VNull [].

(** Modelled from the spec: [item.complete], the state is [Loaded] or
    [Error]. *)
Definition complete (i : t) : bool :=
  match state i with
  | Pending => false
  | Loaded | Error => true
  end.

(** Modelled from the spec: [item.data], the current payload (empty while
    pending). *)
Definition data (i : t) : value := payload i.

(** Modelled from the spec: [item.reset()], of which the spec says only
    that pooling is no behavioural requirement; the slot is again as it was
    created. *)
Definition reset (i : t) : t := new.

(** The outcome a listener of kind [k] is waiting for. *)
Definition resolves (k : kind) (s : EntryState) : bool :=
  match k, s with
  | LoadEvent, Loaded | ErrorEvent, Error => true
  | _, _ => false
  end.

(** The calls made when the listeners [ls] of kind [k] are invoked with
    [arg], in registration order. *)
Definition fire (k : kind) (arg : value) (ls : list (kind * callback)) : list event :=
  map (fun l => Call (snd l) arg) (List.filter (fun l => kind_eqb (fst l) k) ls).

(** Modelled from the spec: [item.addEventListener(event, callback)]; a
    listener registered before completion waits, a listener registered
    after completion is invoked exactly once, at once, with the resolved
    outcome (so it is not kept, and a listener of the other outcome is
    never invoked). *)
Definition addEventListener (k : kind) (f : callback) (i : t) : t * list event :=
  match state i with
  | Pending => (mk Pending (payload i) (listeners i ++ [(k, f)]), [])
  | s => (i, if resolves k s then [Call f (payload i)] else [])
  end.

(** Modelled from the spec: [item.onload(data)], the transition to
    [Loaded]; every waiting success listener is invoked once. *)
Definition onload (d : value) (i : t) : t * list event :=
  (mk Loaded d [], fire LoadEvent d (listeners i)).

(** Modelled from the spec: [item.onerror(data)], the transition to
    [Error]; every waiting error listener is invoked once. *)
Definition onerror (d : value) (i : t) : t * list event :=
  (mk Error d [], fire ErrorEvent d (listeners i)).

End MemoryItem.

(** ** A JavaScript [Map] with string keys

  The entries in insertion order.  [set] on a key that is present keeps its
  place, [set] on a new key appends, [delete] drops the entry. *)

Module JSMap.
Section JSMap.
Context {V : Type}.

Definition t := list (string * V).

Fixpoint get (k : string) (m : t) : option V :=
  match m with
  | [] => None
  | (k', v) :: m' => if (k =? k')%string then Some v else get k m'
  end.

Definition has (k : string) (m : t) : bool :=
  match get k m with Some _ => true | None => false end.

Fixpoint set (k : string) (v : V) (m : t) : t :=
  match m with
  | [] => [(k, v)]
  | (k', v') :: m' =>
      if (k =? k')%string then (k, v) :: m' else (k', v') :: set k v m'
  end.

Fixpoint delete (k : string) (m : t) : t :=
  match m with
  | [] => []
  | (k', v) :: m' =>
      if (k =? k')%string then delete k m' else (k', v) :: delete k m'
  end.

Definition keys (m : t) : list string := map fst m.

End JSMap.
Arguments t : clear implicits.
End JSMap.

(** ** The world the module runs in *)

(** What lies outside the module: the live textures of the WebGL context
    [gl], and the calls that left the module so far, oldest first. *)
Record Env := mkEnv {
  gl : gset texture;
  events : list event
}.

(** A call leaves the module. *)
Definition emit (evs : list event) (e : Env) : Env :=
  mkEnv (gl e) (events e ++ evs).

(** [gl.isTexture(t)] *)
Definition gl_isTexture (t : texture) (e : Env) : bool * Env :=
  (bool_decide (t ∈ gl e), emit [IsTexture t] e).

(** [gl.deleteTexture(t)] *)
Definition gl_deleteTexture (t : texture) (e : Env) : Env :=
  mkEnv (gl e ∖ {[t]}) (events e ++ [DeleteTexture t]).

(** [URL.revokeObjectURL(url)] *)
Definition URL_revokeObjectURL (url : string) (e : Env) : Env :=
  emit [RevokeObjectURL url] e.

(** [if (x.texture && gl.isTexture(x.texture)) gl.deleteTexture(x.texture);] *)
Definition delete_if_texture (t : option texture) (e : Env) : Env :=
  match t with
  | None => e
  | Some h =>
      let '(live, e) := gl_isTexture h e in
      if live then gl_deleteTexture h e else e
  end.

(** The identity of a [MemoryItem] object. *)
Definition ref := nat.

Record World := mkWorld {
  (** [var _memory = new Map()] *)
  _memory : JSMap.t ref;
  (** [var _memoryItemPool = []]; the head of the list is the last element
      of the array, so [push] is a cons and [pop] takes the head.  The plain
      version has no pool and leaves the field alone. *)
  _memoryItemPool : list ref;
  (** [var _lastAccessTime = new Map()] of the plain version; never
      iterated, so its order is not kept.  The pooled version declares no
      such variable: its functions never read or write the field, and throw
      where they name the variable. *)
  _lastAccessTime : gmap string Z;
  (** [var _lastCheckTick = 0] *)
  _lastCheckTick : Z;
  (** the [MemoryItem] objects, by identity, and the next identity *)
  heap : gmap ref MemoryItem.t;
  next_ref : ref;
  (** the WebGL context and the calls made *)
  env : Env
}.

(** [var _rememberTime = 2 * 60 * 1000] *)
Definition _rememberTime : Z := 2 * 60 * 1000.

(** [var _cleanUpInterval = 30 * 1000] *)
Definition _cleanUpInterval : Z := 30 * 1000.

(** The module right after it is loaded, in a context with live textures
    [g]. *)
Definition init (g : gset texture) : World :=
  mkWorld [] [] ∅ 0 ∅ 0%nat (mkEnv g []).

Definition with_memory (m : JSMap.t ref) (w : World) : World :=
  mkWorld m (_memoryItemPool w) (_lastAccessTime w) (_lastCheckTick w)
          (heap w) (next_ref w) (env w).

Definition with_pool (p : list ref) (w : World) : World :=
  mkWorld (_memory w) p (_lastAccessTime w) (_lastCheckTick w)
          (heap w) (next_ref w) (env w).

Definition with_lastAccessTime (a : gmap string Z) (w : World) : World :=
  mkWorld (_memory w) (_memoryItemPool w) a (_lastCheckTick w)
          (heap w) (next_ref w) (env w).

Definition with_lastCheckTick (t : Z) (w : World) : World :=
  mkWorld (_memory w) (_memoryItemPool w) (_lastAccessTime w) t
          (heap w) (next_ref w) (env w).

Definition with_heap (h : gmap ref MemoryItem.t) (w : World) : World :=
  mkWorld (_memory w) (_memoryItemPool w) (_lastAccessTime w) (_lastCheckTick w)
          h (next_ref w) (env w).

Definition with_next_ref (n : ref) (w : World) : World :=
  mkWorld (_memory w) (_memoryItemPool w) (_lastAccessTime w) (_lastCheckTick w)
          (heap w) n (env w).

Definition with_env (e : Env) (w : World) : World :=
  mkWorld (_memory w) (_memoryItemPool w) (_lastAccessTime w) (_lastCheckTick w)
          (heap w) (next_ref w) e.

(** *** MemoryItem objects in the store *)

Definition deref (w : World) (item : ref) : MemoryItem.t :=
  default MemoryItem.new (heap w !! item).

Definition store (item : ref) (i : MemoryItem.t) (w : World) : World :=
  with_heap (<[item := i]> (heap w)) w.

(** [new MemoryItem()] *)
Definition new_MemoryItem (w : World) : ref * World :=
  (next_ref w, with_next_ref (S (next_ref w)) (store (next_ref w) MemoryItem.new w)).

(** [item.reset()] *)
Definition item_reset (item : ref) (w : World) : World :=
  store item (MemoryItem.reset (deref w item)) w.

(** A method of [MemoryItem] called on the object [item]: the object is
    updated in place and the listeners it invokes are called. *)
Definition invoke (item : ref) (method : MemoryItem.t -> MemoryItem.t * list event)
    (w : World) : World :=
  let r := method (deref w item) in
  with_env (emit (snd r) (env w)) (store item (fst r) w).

(** [item.addEventListener(event, callback)] *)
Definition item_addEventListener (item : ref) (k : MemoryItem.kind) (f : callback)
    (w : World) : World :=
  invoke item (MemoryItem.addEventListener k f) w.

(** [item.onload(data)] *)
Definition item_onload (item : ref) (d : value) (w : World) : World :=
  invoke item (MemoryItem.onload d) w.

(** [item.onerror(data)] *)
Definition item_onerror (item : ref) (d : value) (w : World) : World :=
  invoke item (MemoryItem.onerror d) w.

(** ** The type discriminator of a key *)

(** [[^\.]*] up to the end of the string. *)
Fixpoint no_dot (s : string) : bool :=
  match s with
  | EmptyString => true
  | String c s' => negb (Ascii.eqb c ".") && no_dot s'
  end.

(** [filename.match(/\.[^\.]+$/)]: the leftmost position where the pattern
    matches (a dot, then at least one character that is not a dot, up to the
    end of the string); the result is the matched text, or nothing. *)
Fixpoint match_ext (filename : string) : option string :=
  match filename with
  | EmptyString => None
  | String c s' =>
      if Ascii.eqb c "." && negb (s' =? "")%string && no_dot s'
      then Some filename
      else match_ext s'
  end.

(** [toLowerCase] on one character of an ASCII key. *)
Definition lower_ascii (c : ascii) : ascii :=
  if Ascii.leb "A" c && Ascii.leb c "Z"
  then ascii_of_nat (nat_of_ascii c + 32)
  else c.

(** [String.prototype.toLowerCase] *)
Fixpoint toLowerCase (s : string) : string :=
  match s with
  | EmptyString => EmptyString
  | String c s' => String (lower_ascii c) (toLowerCase s')
  end.

(** The [ext] of [remove], in both versions:
    [var ext = ''; if (matches) ext = matches.toString().toLowerCase();] and
    [filename.match(/\.[^\.]+$/)?.toString().toLowerCase() || '']. *)
Definition extension (filename : string) : string :=
  match match_ext filename with
  | Some matches => toLowerCase matches
  | None => ""
  end.

(** ** Freeing a file

    The [switch (ext)] of [remove], the same text in both versions. *)
Definition free_file (ext : string) (file : value) (w : Env) : Env :=
  if (ext =? ".spr")%string then
    (* Delete GPU textures from sprites *)
    let w :=
      match frames file with
      | Some fs => fold_left (fun w fr => delete_if_texture (frame_texture fr) w) fs w
      | None => w
      end in
    delete_if_texture (texture_of file) w
  else if (ext =? ".pal")%string then
    (* Delete palette *)
    delete_if_texture (texture_of file) w
  else
    (* If file is a blob, remove it *)
    match file with
    | VStr url => if match_blob file then URL_revokeObjectURL url w else w
    | _ => w
    end.

(** [filename.match(regex)] of [search]: a regular expression is taken as
    the set of strings it matches. *)
Definition regex := string -> bool.

(** ** How a call ends *)

(** The exception of this module: a name that is not bound. *)
Inductive exn := ReferenceError (name : string).

(** A call returns a value or throws. *)
Inductive completion (A : Type) :=
| Returned (a : A)
| Thrown (e : exn).
Arguments Returned {A} a.
Arguments Thrown {A} e.

(** ** The pooled version

    [_lastAccessTime] is named at three places of this version (in [get],
    in the first loop of [clean] and at the end of [remove]) and declared
    nowhere in it: the declaration of the plain version is local to that
    module.  Evaluating the name throws [ReferenceError]; what the call did
    before stays done. *)

Module Pooled.

(** The slot of [filename], created when it is not in memory yet:
    [if (!item) { ...; _memory.set(filename, item); }] of [get] and [set]. *)
Definition slot (filename : string) (w : World) : ref * World :=
  match JSMap.get filename (_memory w) with
  | Some item => (item, w)
  | None =>
      let '(item, w) :=
        match _memoryItemPool w with
        | item :: pool => (item, item_reset item (with_pool pool w))
        | [] => new_MemoryItem w
        end in
      (item, with_memory (JSMap.set filename item (_memory w)) w)
  end.

(** [get(filename, onload, onerror)]: the slot is found or created, the
    listeners are added, [item.data] is read, and
    [_lastAccessTime.set(filename, Date.now())] throws on its first name,
    before [Date.now()] is called and before anything is returned. *)
Definition get (filename : string) (onload onerror : option callback)
    (w : World) : completion value * World :=
  let '(item, w) := slot filename w in
  let w := match onload with
           | Some f => item_addEventListener item MemoryItem.LoadEvent f w
           | None => w
           end in
  let w := match onerror with
           | Some f => item_addEventListener item MemoryItem.ErrorEvent f w
           | None => w
           end in
  let data := MemoryItem.data (deref w item) in
  (Thrown (ReferenceError "_lastAccessTime"), w).

(** [exist(filename)] *)
Definition exist (filename : string) (w : World) : bool :=
  JSMap.has filename (_memory w).

(** [set(filename, data, error)] *)
Definition set (filename : string) (data error : value) (w : World) : World :=
  let '(item, w) := slot filename w in
  let hasError := truthy error || negb (truthy data) in
  if hasError then item_onerror item data w else item_onload item data w.

(** [remove(gl, filename)]: returns at once for an absent key; for a
    present key the file is freed, the item reset and pooled, the key deleted
    from [_memory], and [_lastAccessTime.delete(filename)] throws. *)
Definition remove (filename : string) (w : World) : completion unit * World :=
  if negb (JSMap.has filename (_memory w)) then (Returned tt, w) else
  match JSMap.get filename (_memory w) with
  | None => (Returned tt, w)
  | Some item =>
      let file := MemoryItem.data (deref w item) in
      let ext := extension filename in
      (* Free file *)
      let w := if truthy file then with_env (free_file ext file (env w)) w else w in
      (* Reset and add to pool *)
      let w := item_reset item w in
      let w := with_pool (item :: _memoryItemPool w) w in
      (* Delete from memory *)
      let w := with_memory (JSMap.delete filename (_memory w)) w in
      (Thrown (ReferenceError "_lastAccessTime"), w)
  end.

(** The first loop of [clean], over the entries that are left to visit:
    [if (item.complete && _lastAccessTime.get(filename) < tick)
    keysToDelete.push(filename);].  For an item that is not complete the
    right operand of [&&] is not evaluated; for the first complete item it
    is, and throws. *)
Fixpoint collect (w : World) (tick : Z) (entries : JSMap.t ref)
    (keysToDelete : list string) : completion (list string) :=
  match entries with
  | [] => Returned keysToDelete
  | (filename, item) :: entries' =>
      if MemoryItem.complete (deref w item)
      then Thrown (ReferenceError "_lastAccessTime")
      else collect w tick entries' keysToDelete
  end.

(** The second loop of [clean]:
    [for (...; i < len; i++) remove(gl, keysToDelete[i]);]. *)
Fixpoint remove_each (keysToDelete : list string) (w : World) : completion unit * World :=
  match keysToDelete with
  | [] => (Returned tt, w)
  | filename :: keys =>
      match remove filename w with
      | (Returned _, w) => remove_each keys w
      | (Thrown e, w) => (Thrown e, w)
      end
  end.

(** [clean(gl, now)] *)
Definition clean (now : Z) (w : World) : completion unit * World :=
  if _lastCheckTick w + _cleanUpInterval >? now then (Returned tt, w) else
  let tick := now - _rememberTime in
  match collect w tick (_memory w) [] with
  | Thrown e => (Thrown e, w)
  | Returned keysToDelete =>
      match remove_each keysToDelete w with
      | (Returned _, w) => (Returned tt, with_lastCheckTick now w)
      | (Thrown e, w) => (Thrown e, w)
      end
  end.

(** [search(regex)] *)
Definition search (re : regex) (w : World) : list string :=
  List.filter re (JSMap.keys (_memory w)).

End Pooled.

(** ** The plain version *)

Module Plain.

(** [if (!item) { item = new MemoryItem(); _memory.set(filename, item); }] *)
Definition slot (filename : string) (w : World) : ref * World :=
  match JSMap.get filename (_memory w) with
  | Some item => (item, w)
  | None =>
      let '(item, w) := new_MemoryItem w in
      (item, with_memory (JSMap.set filename item (_memory w)) w)
  end.

(** [get(filename, onload, onerror)] *)
Definition get (filename : string) (onload onerror : option callback)
    (w : World) : value * World :=
  let '(item, w) := slot filename w in
  let w := match onload with
           | Some f => item_addEventListener item MemoryItem.LoadEvent f w
           | None => w
           end in
  let w := match onerror with
           | Some f => item_addEventListener item MemoryItem.ErrorEvent f w
           | None => w
           end in
  (MemoryItem.data (deref w item), w).

(** [exist(filename)] *)
Definition exist (filename : string) (w : World) : bool :=
  JSMap.has filename (_memory w).

(** [set(filename, data, error)] *)
Definition set (filename : string) (data error : value) (w : World) : World :=
  let '(item, w) := slot filename w in
  let hasError := truthy error || negb (truthy data) in
  if hasError then item_onerror item data w else item_onload item data w.

(** [remove(gl, filename)] *)
Definition remove (filename : string) (w : World) : World :=
  if negb (JSMap.has filename (_memory w)) then w else
  match JSMap.get filename (_memory w) with
  | None => w
  | Some item =>
      let file := MemoryItem.data (deref w item) in
      let ext := extension filename in
      (* Free file *)
      let w := if truthy file then with_env (free_file ext file (env w)) w else w in
      (* Delete from memory *)
      let w := with_memory (JSMap.delete filename (_memory w)) w in
      with_lastAccessTime (base.delete filename (_lastAccessTime w)) w
  end.

(** The test of the loop of [clean]:
    [item.complete && _lastAccessTime.get(filename) < tick]. *)
Definition idle (w : World) (tick : Z) (e : string * ref) : bool :=
  MemoryItem.complete (deref w (snd e)) && js_lt (_lastAccessTime w !! fst e) tick.

(** [for (var [filename, item] of _memory) body] where the body may delete
    entries of [_memory] and adds none: the iterator walks the entries that
    were there when the loop began, in insertion order, and passes over
    an entry that has been deleted by the time it is reached. *)
Definition for_of_memory (body : string -> ref -> World -> World) (w : World) : World :=
  fold_left
    (fun w filename =>
       match JSMap.get filename (_memory w) with
       | Some item => body filename item w
       | None => w
       end)
    (JSMap.keys (_memory w)) w.

(** [clean(gl, now)] *)
Definition clean (now : Z) (w : World) : World :=
  if _lastCheckTick w + _cleanUpInterval >? now then w else
  let tick := now - _rememberTime in
  let w :=
    for_of_memory
      (fun filename item w =>
         if MemoryItem.complete (deref w item)
            && js_lt (_lastAccessTime w !! filename) tick
         then remove filename w
         else w)
      w in
  with_lastCheckTick now w.

(** [search(regex)] *)
Definition search (re : regex) (w : World) : list string :=
  List.filter re (JSMap.keys (_memory w)).

(** [updateAccessTime(filename, time)] *)
Definition updateAccessTime (filename : string) (time : Z) (w : World) : World :=
  with_lastAccessTime (<[filename := time]> (_lastAccessTime w)) w.

End Plain.


(** ** Both versions at once *)

Inductive version := pooled | plain.

Definition exist_in (v : version) : string -> World -> bool :=
  match v with pooled => Pooled.exist | plain => Plain.exist end.

Definition set_in (v : version) : string -> value -> value -> World -> World :=
  match v with pooled => Pooled.set | plain => Plain.set end.

(** The world a call of [remove] leaves, whether the call returns or, as the
    pooled one does for every present key, throws. *)
Definition remove_in (v : version) : string -> World -> World :=
  match v with
  | pooled => fun filename w => snd (Pooled.remove filename w)
  | plain => Plain.remove
  end.

(** The world a call of [clean] leaves, whether it returns or throws. *)
Definition clean_in (v : version) : Z -> World -> World :=
  match v with
  | pooled => fun now w => snd (Pooled.clean now w)
  | plain => Plain.clean
  end.

(** [remove] and [clean] of either version with the way they end; the plain
    ones have no [throw] and reach none. *)
Definition remove_call (v : version) (filename : string) (w : World)
    : completion unit * World :=
  match v with
  | pooled => Pooled.remove filename w
  | plain => (Returned tt, Plain.remove filename w)
  end.

Definition clean_call (v : version) (now : Z) (w : World) : completion unit * World :=
  match v with
  | pooled => Pooled.clean now w
  | plain => (Returned tt, Plain.clean now w)
  end.

Definition search_in (v : version) : regex -> World -> list string :=
  match v with pooled => Pooled.search | plain => Plain.search end.

Definition slot_in (v : version) : string -> World -> ref * World :=
  match v with pooled => Pooled.slot | plain => Plain.slot end.

(** The slot of a key, read through the store. *)
Definition entry (filename : string) (w : World) : option MemoryItem.t :=
  deref w <$> JSMap.get filename (_memory w).

(** [lastAccess(key)] *)
Definition lastAccess (filename : string) (w : World) : option Z :=
  _lastAccessTime w !! filename.

(** What [remove] releases for a slot that holds [file]: [if (file) switch ...]. *)
Definition reclaim (filename : string) (file : value) (e : Env) : Env :=
  if truthy file then free_file (extension filename) file e else e.

(** [get] of either version, called while the clock reads [date_now], with
    the way it ends.  Neither version reads the clock: the plain one has no
    use for it, the pooled one throws before [Date.now()] is called. *)
Definition get_in (v : version) (filename : string) (onload onerror : option callback)
    (date_now : Z) (w : World) : completion value * World :=
  match v with
  | pooled => Pooled.get filename onload onerror w
  | plain =>
      let r := Plain.get filename onload onerror w in (Returned (fst r), snd r)
  end.

(** The keys a sweep of the plain version at [now] finds idle. *)
Definition eligible (now : Z) (w : World) : list string :=
  map fst (List.filter (Plain.idle w (now - _rememberTime)) (_memory w)).

(** [remove] called on each key of a list, in order. *)
Definition evict_all (v : version) (keys : list string) (w : World) : World :=
  fold_left (fun w filename => remove_in v filename w) keys w.

(** The slot of a key is in a completed state. *)
Definition completed (filename : string) (w : World) : Prop :=
  exists i, entry filename w = Some i /\ MemoryItem.complete i = true.

(** A call into the WebGL context. *)
Definition is_gl_call (ev : event) : bool :=
  match ev with
  | IsTexture _ | DeleteTexture _ => true
  | Call _ _ | RevokeObjectURL _ => false
  end.

(** ** Sequences of calls on the exported object *)

Inductive op :=
| OpGet (filename : string) (onload onerror : option callback) (date_now : Z)
| OpSet (filename : string) (data error : value)
| OpExist (filename : string)
| OpRemove (filename : string)
| OpClean (now : Z)
| OpSearch (re : regex).

Inductive result :=
| RData (data : value)
| RBool (b : bool)
| RKeys (filenames : list string)
| RVoid
| RThrown (e : exn).

(** What the caller gets from a call that ended with [c]. *)
Definition answer {A : Type} (f : A -> result) (c : completion A) : result :=
  match c with
  | Returned a => f a
  | Thrown e => RThrown e
  end.

(** One call on the object a version exports; [date_now] is the clock during
    a [get].  A call that throws leaves the world as it was at the throw. *)
Definition call (v : version) (o : op) (w : World) : result * World :=
  match o with
  | OpGet filename onload onerror date_now =>
      let r := get_in v filename onload onerror date_now w in
      (answer RData (fst r), snd r)
  | OpSet filename data error => (RVoid, set_in v filename data error w)
  | OpExist filename => (RBool (exist_in v filename w), w)
  | OpRemove filename =>
      let r := remove_call v filename w in (answer (fun _ => RVoid) (fst r), snd r)
  | OpClean now =>
      let r := clean_call v now w in (answer (fun _ => RVoid) (fst r), snd r)
  | OpSearch re => (RKeys (search_in v re w), w)
  end.

(** The plain version driven by a caller that reports every access:
    [get(filename, ...)] is followed by [updateAccessTime(filename, Date.now())]. *)
Definition call_touching (o : op) (w : World) : result * World :=
  match o with
  | OpGet filename onload onerror date_now =>
      let r := Plain.get filename onload onerror w in
      (RData (fst r), Plain.updateAccessTime filename date_now (snd r))
  | _ => call plain o w
  end.

(** The plain version with every access reported, and the pooled version,
    which exports no [updateAccessTime]. *)
Definition drive (v : version) : op -> World -> result * World :=
  match v with pooled => call pooled | plain => call_touching end.

(** A sequence of calls: the results in order and the state at the end. *)
Fixpoint run {S : Type} (step : op -> S -> result * S) (ops : list op) (s : S)
    : list result * S :=
  match ops with
  | [] => ([], s)
  | o :: ops' =>
      let r := step o s in
      let rs := run step ops' (snd r) in
      (fst r :: fst rs, snd rs)
  end.

(** No [set] of the sequence has to create its slot: the key is always
    present when [set] is called. *)
Fixpoint set_finds_slot (step : op -> World -> result * World) (ops : list op)
    (w : World) : bool :=
  match ops with
  | [] => true
  | o :: ops' =>
      match o with
      | OpSet filename _ _ => JSMap.has filename (_memory w)
      | _ => true
      end && set_finds_slot step ops' (snd (step o w))
  end.

(** ** Well-formed worlds

    The keys of [_memory] are distinct (it is a [Map]); no [MemoryItem] is
    held twice, be it by two keys, twice by the pool, or by a key and the
    pool; and every object held has been allocated. *)

Definition refs (w : World) : list ref :=
  (map snd (_memory w) ++ _memoryItemPool w)%list.

Definition distinct_keys (w : World) : Prop := NoDup (JSMap.keys (_memory w)).

Definition wf (w : World) : Prop :=
  distinct_keys w /\
  NoDup (refs w) /\
  Forall (fun r => (r < next_ref w)%nat) (refs w).

#[global] Instance wf_dec (w : World) : Decision (wf w).
Proof. unfold wf, distinct_keys. apply _. Defined.

(** The payload of the slot of a key ([undefined] when there is no slot). *)
Definition payload_of (filename : string) (w : World) : value :=
  default VUndefined (MemoryItem.data <$> entry filename w).

(** The test of a sweep on a key:
    [item.complete && _lastAccessTime.get(filename) < tick]. *)
Definition idle_key (w : World) (tick : Z) (filename : string) : bool :=
  match entry filename w with
  | Some i => MemoryItem.complete i && js_lt (lastAccess filename w) tick
  | None => false
  end.

(** What the removals of [keys], in order, release, each with the payload
    its slot holds in [w]. *)
Definition reclaim_all (keys : list string) (w : World) (e : Env) : Env :=
  fold_left (fun e filename => reclaim filename (payload_of filename w) e) keys e.

(** ** The cache by value

    What a caller can tell about a world: the slots by key in insertion
    order, the timestamps, the time of the last sweep, the WebGL context and
    the calls made.  The operations below act on this view directly, [get]
    with the report of the access that follows it; the plain version,
    driven by a caller that reports every access, is compared with them. *)

Record Cache := mkCache {
  entries : JSMap.t MemoryItem.t;
  access : gmap string Z;
  lastCheck : Z;
  outside : Env
}.

Definition view (w : World) : Cache :=
  mkCache (map (fun e => (fst e, deref w (snd e))) (_memory w))
          (_lastAccessTime w) (_lastCheckTick w) (env w).

Module ByValue.

Definition slot (filename : string) (c : Cache) : MemoryItem.t * Cache :=
  match JSMap.get filename (entries c) with
  | Some i => (i, c)
  | None =>
      (MemoryItem.new,
       mkCache (JSMap.set filename MemoryItem.new (entries c))
               (access c) (lastCheck c) (outside c))
  end.

(** A method called on the slot of a key that is present. *)
Definition invoke (filename : string)
    (method : MemoryItem.t -> MemoryItem.t * list event) (c : Cache) : Cache :=
  match JSMap.get filename (entries c) with
  | Some i =>
      mkCache (JSMap.set filename (fst (method i)) (entries c))
              (access c) (lastCheck c) (emit (snd (method i)) (outside c))
  | None => c
  end.

Definition listen (filename : string) (k : MemoryItem.kind) (f : option callback)
    (c : Cache) : Cache :=
  match f with
  | Some f => invoke filename (MemoryItem.addEventListener k f) c
  | None => c
  end.

Definition data (filename : string) (c : Cache) : value :=
  match JSMap.get filename (entries c) with
  | Some i => MemoryItem.data i
  | None => VUndefined
  end.

(** [updateAccessTime(filename, time)] *)
Definition touch (filename : string) (time : Z) (c : Cache) : Cache :=
  mkCache (entries c) (<[filename := time]> (access c)) (lastCheck c) (outside c).

(** [get(filename, onload, onerror)] followed by
    [updateAccessTime(filename, date_now)]. *)
Definition get (filename : string) (onload onerror : option callback)
    (date_now : Z) (c : Cache) : value * Cache :=
  let c := snd (slot filename c) in
  let c := listen filename MemoryItem.LoadEvent onload c in
  let c := listen filename MemoryItem.ErrorEvent onerror c in
  (data filename c, touch filename date_now c).

Definition exist (filename : string) (c : Cache) : bool :=
  JSMap.has filename (entries c).

Definition set (filename : string) (data error : value) (c : Cache) : Cache :=
  let c := snd (slot filename c) in
  if truthy error || negb (truthy data)
  then invoke filename (MemoryItem.onerror data) c
  else invoke filename (MemoryItem.onload data) c.

Definition remove (filename : string) (c : Cache) : Cache :=
  match JSMap.get filename (entries c) with
  | None => c
  | Some i =>
      mkCache (JSMap.delete filename (entries c))
              (base.delete filename (access c)) (lastCheck c)
              (reclaim filename (MemoryItem.data i) (outside c))
  end.

Definition idle (c : Cache) (tick : Z) (e : string * MemoryItem.t) : bool :=
  MemoryItem.complete (snd e) && js_lt (access c !! fst e) tick.

Definition clean (now : Z) (c : Cache) : Cache :=
  if lastCheck c + _cleanUpInterval >? now then c else
  let keysToDelete :=
    map fst (List.filter (idle c (now - _rememberTime)) (entries c)) in
  let c := fold_left (fun c filename => remove filename c) keysToDelete c in
  mkCache (entries c) (access c) now (outside c).

Definition search (re : regex) (c : Cache) : list string :=
  List.filter re (JSMap.keys (entries c)).

Definition call (o : op) (c : Cache) : result * Cache :=
  match o with
  | OpGet filename onload onerror date_now =>
      let r := get filename onload onerror date_now c in (RData (fst r), snd r)
  | OpSet filename data error => (RVoid, set filename data error c)
  | OpExist filename => (RBool (exist filename c), c)
  | OpRemove filename => (RVoid, remove filename c)
  | OpClean now => (RVoid, clean now c)
  | OpSearch re => (RKeys (search re c), c)
  end.

End ByValue.

(** What a caller of [slot] relies on, in either version: the key is mapped
    to the object returned, the object is the slot that was there or a fresh
    one, and nothing else the caller can see has changed. *)
Definition slot_result (filename : string) (w : World) (r : ref * World) : Prop :=
  JSMap.get filename (_memory (snd r)) = Some (fst r) /\
  deref (snd r) (fst r) = default MemoryItem.new (entry filename w) /\
  _lastAccessTime (snd r) = _lastAccessTime w /\
  _lastCheckTick (snd r) = _lastCheckTick w /\
  env (snd r) = env w.

(** Every key of the cache has a timestamp. *)
Definition timed (c : Cache) : Prop :=
  forall k, JSMap.has k (entries c) = true -> is_Some (access c !! k).

(** ** The discriminator as the specification words it *)

(** The substring from the last ['.'] to the end, when there is a ['.']. *)
Fixpoint from_last_dot (key : string) : option string :=
  match key with
  | EmptyString => None
  | String c key' =>
      match from_last_dot key' with
      | Some suffix => Some suffix
      | None => if Ascii.eqb c "." then Some key else None
      end
  end.

(** "The substring from the last ['.'] to the end, lower-cased; keys without
    a ['.'] get the empty discriminator." *)
Definition spec_discriminator (key : string) : string :=
  match from_last_dot key with
  | Some suffix => toLowerCase suffix
  | None => ""
  end.

(** ** Worlds of the examples *)

(** A sprite with three frames, two of which share a texture. *)
Definition sprite : value :=
  VFile {| file_frames := Some [ {| frame_texture := Some 1%nat |};
                                 {| frame_texture := Some 2%nat |};
                                 {| frame_texture := Some 1%nat |} ];
           file_texture := Some 3%nat |}.

(** ["a.spr"] requested at time 0 and loaded, in a context where the
    textures 1 and 3 are live; [drive plain] reports the access, and the
    request of the pooled version throws once the slot is there. *)
Definition loaded_sprite (v : version) : World :=
  snd (run (drive v)
         [OpGet "a.spr" (Some 7%nat) (Some 8%nat) 0; OpSet "a.spr" sprite VUndefined]
         (init {[1%nat; 3%nat]})).

(** A request, the load, a sweep two minutes and a half later, and a look
    whether the key is still there. *)
Definition request_load_sweep : list op :=
  [OpGet "a.txt" None None 0; OpSet "a.txt" (VStr "text") VUndefined;
   OpClean 150000; OpExist "a.txt"].

(** ["b.pal"] requested and still pending. *)
Definition pending_palette (v : version) : World :=
  snd (get_in v "b.pal" (Some 7%nat) None 0 (init ∅)).

(** ["c.dat"] loaded as a blob URL. *)
Definition loaded_blob (v : version) : World :=
  snd (run (drive v)
         [OpGet "c.dat" None None 0; OpSet "c.dat" (VStr "blob:c") VUndefined]
         (init {[1%nat]})).

(** ["a.txt"] requested at time 0 and loaded, the access reported. *)
Definition loaded_text (v : version) : World :=
  snd (run (drive v)
         [OpGet "a.txt" None None 0; OpSet "a.txt" (VStr "text") VUndefined]
         (init ∅)).

(** Two requests and a load that answers the first. *)
Definition two_requests : list op :=
  [OpGet "a.txt" (Some 7%nat) None 0; OpSet "a.txt" (VStr "text") VUndefined;
   OpGet "b.pal" None None 10].

(** A load that no request preceded. *)
Definition unrequested_load : list op :=
  [OpSet "a.txt" (VStr "text") VUndefined].

(** ** Notions for the further properties *)

(** The textures that a sequence of calls releases, in order. *)
Fixpoint released (evs : list event) : list texture :=
  match evs with
  | [] => []
  | DeleteTexture t :: evs' => t :: released evs'
  | _ :: evs' => released evs'
  end.

(** The calls a reclamation may make: a liveness query, a liveness query
    followed at once by the release of the texture it asked about, or the
    revocation of a URL.  A release never comes without its query, and a
    listener is never called. *)
Inductive guarded : list event -> Prop :=
| guarded_nil : guarded []
| guarded_query t evs : guarded evs -> guarded (IsTexture t :: evs)
| guarded_release t evs : guarded evs -> guarded (IsTexture t :: DeleteTexture t :: evs)
| guarded_revoke url evs : guarded evs -> guarded (RevokeObjectURL url :: evs).

(** The outside [e'] comes from [e] by guarded calls that release live
    textures only, each once, and take exactly these out of the context. *)
Definition reclaims (e e' : Env) : Prop :=
  exists evs,
    events e' = (events e ++ evs)%list /\
    guarded evs /\
    NoDup (released evs) /\
    (forall t, t ∈ released evs -> t ∈ gl e) /\
    gl e' = gl e ∖ list_to_set (released evs).

(** The textures of the frames of a file, then the texture of the file. *)
Definition sprite_textures (file : value) : list texture :=
  (match frames file with
   | Some fs => omap frame_texture fs
   | None => []
   end ++ option_list (texture_of file))%list.

(** Every [MemoryItem] allocated so far is held by a key or by the pool. *)
Definition conserved (w : World) : Prop :=
  (length (_memory w) + length (_memoryItemPool w))%nat = next_ref w.

(** Every timestamp of the cache belongs to a key that is present. *)
Definition stamped (c : Cache) : Prop :=
  forall k, is_Some (access c !! k) -> JSMap.has k (entries c) = true.

(** ["A.SPR"], in capitals, loaded with the sprite. *)
Definition loaded_capital_sprite (v : version) : World :=
  snd (run (drive v)
         [OpGet "A.SPR" None None 0; OpSet "A.SPR" sprite VUndefined]
         (init {[1%nat; 3%nat]})).

(** Three keys requested, the first one removed and a fourth one requested. *)
Definition churn : list op :=
  [OpGet "a.txt" None None 0; OpGet "b.pal" None None 1; OpGet "c.dat" None None 2;
   OpRemove "a.txt"; OpGet "d.spr" None None 3].

(** No [MemoryItem] is held twice: not by two keys, not by a key and the
    pool, not twice by the pool. *)
Definition unshared (w : World) : Prop :=
  (forall k k' item,
     JSMap.get k (_memory w) = Some item ->
     JSMap.get k' (_memory w) = Some item -> k = k') /\
  (forall k item, JSMap.get k (_memory w) = Some item -> item ∉ _memoryItemPool w) /\
  NoDup (_memoryItemPool w).

(** The world after two requests and the load that answers the first, the
    accesses reported. *)
Definition one_loaded_one_pending : World :=
  snd (run (drive plain) two_requests (init ∅)).

(** Two caches hold the same slots by key, in the same order, the same
    context and the same calls made; the timestamps and the time of the last
    sweep are left out. *)
Definition same_cache (c c' : Cache) : Prop :=
  entries c = entries c' /\ outside c = outside c'.

(** The same of two worlds, read through their stores of objects; the pool
    is left out as well. *)
Definition same_store (w u : World) : Prop := same_cache (view w) (view u).

(** The result of a call of the pooled version against the result of the
    same call of the plain version: the same, or a throw. *)
Definition same_or_thrown (rp rq : result) : Prop :=
  rp = rq \/ exists e, rp = RThrown e.

(** * Proofs *)

(** ** Facts about [JSMap] *)

Section JSMap_facts.
Context {V : Type}.
Implicit Types (m : JSMap.t V) (k : string) (v : V).

Lemma eqb_refl' k : (k =? k)%string = true.
Proof. apply String.eqb_refl. Qed.

Lemma eqb_ne k k' : k <> k' -> (k =? k')%string = false.
Proof. intros H. now apply String.eqb_neq. Qed.

Lemma get_set_eq k v m : JSMap.get k (JSMap.set k v m) = Some v.
Proof.
  induction m as [|[k' v'] m IH]; simpl.
  - now rewrite eqb_refl'.
  - destruct (String.eqb_spec k k') as [->|Hne]; simpl.
    + now rewrite eqb_refl'.
    + now rewrite (eqb_ne _ _ Hne).
Qed.

Lemma get_set_ne k k' v m : k <> k' -> JSMap.get k' (JSMap.set k v m) = JSMap.get k' m.
Proof.
  intros Hne. induction m as [|[k0 v0] m IH]; simpl.
  - rewrite eqb_ne; [reflexivity | congruence].
  - destruct (String.eqb_spec k k0) as [->|Hne0]; simpl.
    + rewrite (eqb_ne k' k0); [reflexivity | congruence].
    + now rewrite IH.
Qed.

Lemma get_delete_eq k m : JSMap.get k (JSMap.delete k m) = None.
Proof.
  induction m as [|[k' v'] m IH]; simpl; [reflexivity|].
  destruct (String.eqb_spec k k') as [->|Hne]; simpl; [assumption|].
  now rewrite (eqb_ne _ _ Hne).
Qed.

Lemma get_delete_ne k k' m : k <> k' -> JSMap.get k' (JSMap.delete k m) = JSMap.get k' m.
Proof.
  intros Hne. induction m as [|[k0 v0] m IH]; simpl; [reflexivity|].
  destruct (String.eqb_spec k k0) as [->|Hne0]; simpl.
  - rewrite (eqb_ne k' k0); [assumption | congruence].
  - now rewrite IH.
Qed.

Lemma get_None_keys k m : JSMap.get k m = None <-> k ∉ JSMap.keys m.
Proof.
  induction m as [|[k' v'] m IH]; simpl.
  - split; [intros _; apply not_elem_of_nil | reflexivity].
  - rewrite not_elem_of_cons.
    destruct (String.eqb_spec k k') as [->|Hne]; split; try tauto; try discriminate.
Qed.

Lemma get_Some_keys k m : is_Some (JSMap.get k m) <-> k ∈ JSMap.keys m.
Proof.
  destruct (JSMap.get k m) eqn:E.
  - split; [intros _|eauto].
    destruct (decide (k ∈ JSMap.keys m)) as [H|H]; [assumption|].
    apply get_None_keys in H. congruence.
  - split; [intros [? ?]; discriminate|].
    intros H. apply get_None_keys in E. contradiction.
Qed.

Lemma has_true k m : JSMap.has k m = true <-> k ∈ JSMap.keys m.
Proof.
  rewrite <- get_Some_keys. unfold JSMap.has.
  destruct (JSMap.get k m); split; eauto; try discriminate.
  intros [? ?]; discriminate.
Qed.

Lemma has_false k m : JSMap.has k m = false <-> JSMap.get k m = None.
Proof. unfold JSMap.has. destruct (JSMap.get k m); split; congruence. Qed.

Lemma has_delete_eq k m : JSMap.has k (JSMap.delete k m) = false.
Proof. apply has_false, get_delete_eq. Qed.

Lemma has_delete_ne k k' m : k <> k' -> JSMap.has k' (JSMap.delete k m) = JSMap.has k' m.
Proof. intros H. unfold JSMap.has. now rewrite get_delete_ne. Qed.

Lemma delete_absent k m : JSMap.get k m = None -> JSMap.delete k m = m.
Proof.
  induction m as [|[k' v'] m IH]; simpl; [reflexivity|].
  destruct (String.eqb_spec k k'); [discriminate|].
  intros H. now rewrite IH.
Qed.

Lemma keys_delete_subseteq k m : JSMap.keys (JSMap.delete k m) ⊆ JSMap.keys m.
Proof.
  induction m as [|[k' v'] m IH]; simpl; [reflexivity|].
  destruct (String.eqb_spec k k'); simpl.
  - intros x Hx. rewrite elem_of_cons. right. now apply IH.
  - intros x. rewrite !elem_of_cons. intros [->|H]; [now left|right; now apply IH].
Qed.

Lemma NoDup_keys_delete k m : NoDup (JSMap.keys m) -> NoDup (JSMap.keys (JSMap.delete k m)).
Proof.
  induction m as [|[k' v'] m IH]; simpl; [trivial|].
  rewrite NoDup_cons. intros [Hn Hd].
  destruct (String.eqb_spec k k'); simpl; [auto|].
  rewrite NoDup_cons. split; [|auto].
  intros H. apply Hn. now apply (keys_delete_subseteq k).
Qed.

Lemma keys_set k v m :
  JSMap.keys (JSMap.set k v m) =
  if JSMap.has k m then JSMap.keys m else (JSMap.keys m ++ [k])%list.
Proof.
  unfold JSMap.has. induction m as [|[k' v'] m IH]; simpl; [reflexivity|].
  destruct (String.eqb_spec k k') as [->|Hne]; simpl; [reflexivity|].
  rewrite IH. now destruct (JSMap.get k m).
Qed.

Lemma NoDup_keys_set k v m : NoDup (JSMap.keys m) -> NoDup (JSMap.keys (JSMap.set k v m)).
Proof.
  intros H. rewrite keys_set. destruct (JSMap.has k m) eqn:E; [assumption|].
  apply NoDup_app. split; [assumption|]. split; [|apply NoDup_singleton].
  intros x Hx ->%list_elem_of_singleton.
  apply has_true in Hx. congruence.
Qed.

End JSMap_facts.

(** ** Facts about the store of objects *)

Lemma deref_invoke item method w :
  deref (invoke item method w) item = fst (method (deref w item)).
Proof. unfold invoke, deref. simpl. now rewrite lookup_insert_eq. Qed.

Lemma entry_Some filename item w :
  JSMap.get filename (_memory w) = Some item -> entry filename w = Some (deref w item).
Proof. unfold entry. now intros ->. Qed.

(** ** What [remove] does *)

Lemma Pooled_remove_absent filename w :
  JSMap.get filename (_memory w) = None -> Pooled.remove filename w = (Returned tt, w).
Proof. intros H. unfold Pooled.remove, JSMap.has. now rewrite H. Qed.

Lemma Plain_remove_absent filename w :
  JSMap.get filename (_memory w) = None -> Plain.remove filename w = w.
Proof. intros H. unfold Plain.remove, JSMap.has. now rewrite H. Qed.

Lemma Pooled_remove_present filename item w :
  JSMap.get filename (_memory w) = Some item ->
  Pooled.remove filename w =
  (Thrown (ReferenceError "_lastAccessTime"),
   mkWorld (JSMap.delete filename (_memory w)) (item :: _memoryItemPool w)
           (_lastAccessTime w) (_lastCheckTick w)
           (<[item := MemoryItem.new]> (heap w)) (next_ref w)
           (reclaim filename (MemoryItem.data (deref w item)) (env w))).
Proof.
  intros H. unfold Pooled.remove, JSMap.has, reclaim. rewrite H. simpl.
  now destruct (truthy (MemoryItem.data (deref w item))).
Qed.

Lemma Plain_remove_present filename item w :
  JSMap.get filename (_memory w) = Some item ->
  Plain.remove filename w =
  mkWorld (JSMap.delete filename (_memory w)) (_memoryItemPool w)
          (base.delete filename (_lastAccessTime w)) (_lastCheckTick w)
          (heap w) (next_ref w)
          (reclaim filename (MemoryItem.data (deref w item)) (env w)).
Proof.
  intros H. unfold Plain.remove, JSMap.has, reclaim. rewrite H. simpl.
  now destruct (truthy (MemoryItem.data (deref w item))).
Qed.

Lemma remove_in_absent v filename w :
  JSMap.get filename (_memory w) = None -> remove_in v filename w = w.
Proof.
  intros H. destruct v; simpl;
    [now rewrite Pooled_remove_absent | now apply Plain_remove_absent].
Qed.

(** The world a removal leaves, in the pooled version (where the call has
    thrown) and in the plain one. *)
Lemma remove_in_pooled filename item w :
  JSMap.get filename (_memory w) = Some item ->
  remove_in pooled filename w =
  mkWorld (JSMap.delete filename (_memory w)) (item :: _memoryItemPool w)
          (_lastAccessTime w) (_lastCheckTick w)
          (<[item := MemoryItem.new]> (heap w)) (next_ref w)
          (reclaim filename (MemoryItem.data (deref w item)) (env w)).
Proof. intros H. simpl. now rewrite (Pooled_remove_present _ _ _ H). Qed.

Lemma remove_in_plain filename item w :
  JSMap.get filename (_memory w) = Some item ->
  remove_in plain filename w =
  mkWorld (JSMap.delete filename (_memory w)) (_memoryItemPool w)
          (base.delete filename (_lastAccessTime w)) (_lastCheckTick w)
          (heap w) (next_ref w)
          (reclaim filename (MemoryItem.data (deref w item)) (env w)).
Proof. apply Plain_remove_present. Qed.

(** The part of a removal that both versions share; the timestamp is
    deleted by the plain version only. *)
Lemma remove_in_present v filename item w :
  JSMap.get filename (_memory w) = Some item ->
  _memory (remove_in v filename w) = JSMap.delete filename (_memory w) /\
  _lastAccessTime (remove_in v filename w)
    = match v with
      | pooled => _lastAccessTime w
      | plain => base.delete filename (_lastAccessTime w)
      end /\
  _lastCheckTick (remove_in v filename w) = _lastCheckTick w /\
  env (remove_in v filename w) = reclaim filename (MemoryItem.data (deref w item)) (env w).
Proof.
  intros H. destruct v;
    [rewrite (remove_in_pooled _ _ _ H) | rewrite (remove_in_plain _ _ _ H)];
    now simpl.
Qed.

Lemma exist_in_has v filename w : exist_in v filename w = JSMap.has filename (_memory w).
Proof. now destruct v. Qed.

(** ** Removal of an absent and of a present key, in the plain version *)

(** X16. In the plain version, for every key: when the key is absent,
    [remove] leaves the whole world (the store, the timestamps and everything
    else) as it was; when the key is present, after [remove] the key does not
    exist and has no timestamp. *)
Theorem remove_absent_present (filename : string) (w : World) :
  (exist_in plain filename w = false -> remove_in plain filename w = w) /\
  (exist_in plain filename w = true ->
     exist_in plain filename (remove_in plain filename w) = false /\
     lastAccess filename (remove_in plain filename w) = None).
Proof.
  rewrite !exist_in_has. split.
  - intros H%has_false. now apply remove_in_absent.
  - intros H. unfold JSMap.has in H.
    destruct (JSMap.get filename (_memory w)) as [item|] eqn:E; [|discriminate].
    destruct (remove_in_present plain _ _ _ E) as (Hm & Ht & _ & _).
    unfold lastAccess. rewrite Hm, Ht. split.
    + apply has_delete_eq.
    + apply lookup_delete_eq.
Qed.

(** X16 at work: ["a.spr"] is removed from the world where it is loaded,
    and removing ["zzz"], which is absent, changes nothing. *)
Lemma remove_absent_present_witness :
  remove_in plain "zzz" (loaded_sprite plain) = loaded_sprite plain /\
  exist_in plain "a.spr" (remove_in plain "a.spr" (loaded_sprite plain)) = false /\
  lastAccess "a.spr" (remove_in plain "a.spr" (loaded_sprite plain)) = None.
Proof.
  split.
  - apply (remove_absent_present "zzz" (loaded_sprite plain)). reflexivity.
  - apply (remove_absent_present "a.spr" (loaded_sprite plain)). reflexivity.
Defined.

(** ** A slot without payload, in the plain version *)

(** X17. In the plain version, for every present key whose slot holds no
    payload, or a falsy one (a pending slot for one), [remove] makes no call
    at all (no liveness query, no texture release, no URL revocation: the
    context and the log of calls are as before) and still deletes the slot
    and the timestamp. *)
Theorem remove_without_payload (filename : string) (i : MemoryItem.t) (w : World) :
  entry filename w = Some i ->
  truthy (MemoryItem.data i) = false ->
  env (remove_in plain filename w) = env w /\
  exist_in plain filename (remove_in plain filename w) = false /\
  lastAccess filename (remove_in plain filename w) = None.
Proof.
  unfold entry. intros He Hf.
  destruct (JSMap.get filename (_memory w)) as [item|] eqn:E; [|discriminate].
  simpl in He. injection He as <-.
  destruct (remove_in_present plain _ _ _ E) as (Hm & Ht & _ & Henv).
  rewrite exist_in_has. unfold lastAccess. rewrite Hm, Ht, Henv.
  unfold reclaim. rewrite Hf. repeat split.
  - apply has_delete_eq.
  - apply lookup_delete_eq.
Qed.

(** X17 at work on ["b.pal"], requested and still pending. *)
Lemma remove_without_payload_witness :
  env (remove_in plain "b.pal" (pending_palette plain)) = env (pending_palette plain) /\
  exist_in plain "b.pal" (remove_in plain "b.pal" (pending_palette plain)) = false /\
  lastAccess "b.pal" (remove_in plain "b.pal" (pending_palette plain)) = None.
Proof.
  apply (remove_without_payload "b.pal"
           (MemoryItem.mk MemoryItem.Pending VNull [(MemoryItem.LoadEvent, 7%nat)])).
  - reflexivity.
  - reflexivity.
Defined.

(** ** The sweep of the plain version limits its own rate *)

Lemma clean_in_limited now w :
  now < _lastCheckTick w + _cleanUpInterval -> clean_in plain now w = w.
Proof.
  intros H. simpl. unfold Plain.clean.
  destruct (Z.gtb_spec (_lastCheckTick w + _cleanUpInterval) now); trivial; lia.
Qed.

Lemma clean_in_stamps now w :
  _lastCheckTick w + _cleanUpInterval <= now ->
  _lastCheckTick (clean_in plain now w) = now.
Proof.
  intros H. simpl. unfold Plain.clean.
  destruct (Z.gtb_spec (_lastCheckTick w + _cleanUpInterval) now); trivial; lia.
Qed.

(** X18. In the plain version, for every call [clean(gl, now)]: when
    [now < _lastCheckTick + _cleanUpInterval] the call changes nothing at
    all; otherwise [_lastCheckTick] is [now] afterwards, whatever was
    evicted; hence of two calls less than an interval apart at most one does
    any work: the first changes nothing, or the second does not. *)
Theorem clean_rate_limited (now : Z) (w : World) :
  (now < _lastCheckTick w + _cleanUpInterval -> clean_in plain now w = w) /\
  (_lastCheckTick w + _cleanUpInterval <= now ->
     _lastCheckTick (clean_in plain now w) = now) /\
  (forall now', now' < now + _cleanUpInterval ->
     clean_in plain now w = w \/
     clean_in plain now' (clean_in plain now w) = clean_in plain now w).
Proof.
  split; [apply clean_in_limited|]. split; [apply clean_in_stamps|].
  intros now' H'.
  destruct (Z.lt_ge_cases now (_lastCheckTick w + _cleanUpInterval)) as [Hlt|Hge].
  - left. now apply clean_in_limited.
  - right. apply clean_in_limited. rewrite (clean_in_stamps _ _ Hge). exact H'.
Qed.

(** X18 at work: with [_lastCheckTick = 0] the sweep at 29999 changes
    nothing, the sweep at 30000 stamps 30000, and the sweep at 59999 that
    follows it changes nothing. *)
Lemma clean_rate_limited_witness :
  clean_in plain 29999 (loaded_sprite plain) = loaded_sprite plain /\
  _lastCheckTick (clean_in plain 30000 (loaded_sprite plain)) = 30000 /\
  clean_in plain 59999 (clean_in plain 30000 (loaded_sprite plain))
  = clean_in plain 30000 (loaded_sprite plain).
Proof.
  destruct (clean_rate_limited 29999 (loaded_sprite plain)) as (H1 & _ & _).
  destruct (clean_rate_limited 30000 (loaded_sprite plain)) as (_ & H2 & H3).
  split; [apply H1; reflexivity|]. split; [apply H2; discriminate|].
  destruct (H3 59999) as [H|H]; [reflexivity| |exact H].
  apply (f_equal _lastCheckTick) in H. rewrite H2 in H; discriminate.
Defined.

(** ** C8: the discriminator, and keys of the other types *)

Lemma from_last_dot_None key : from_last_dot key = None <-> no_dot key = true.
Proof.
  induction key as [|c key IH]; simpl; [tauto|].
  destruct (from_last_dot key) as [suffix|].
  - split; [discriminate|]. intros [_ H]%andb_true_iff.
    apply IH in H. discriminate.
  - destruct (Ascii.eqb c "."); simpl; split; try discriminate; try tauto.
Qed.

(** The regular expression finds the text from the last dot on, unless that
    dot ends the key. *)
Lemma match_ext_from_last_dot key :
  match_ext key =
  match from_last_dot key with
  | Some suffix => if (suffix =? ".")%string then None else Some suffix
  | None => None
  end.
Proof.
  induction key as [|c key IH]; simpl; [reflexivity|].
  destruct (from_last_dot key) as [suffix|] eqn:E.
  - assert (Hd : no_dot key = false).
    { destruct (no_dot key) eqn:D; [|reflexivity].
      apply from_last_dot_None in D. congruence. }
    rewrite Hd, andb_false_r. exact IH.
  - assert (Hd : no_dot key = true) by now apply from_last_dot_None.
    rewrite Hd, andb_true_r.
    destruct (Ascii.eqb_spec c ".") as [->|Hc]; simpl; [|exact IH].
    destruct key as [|c' key']; simpl; [exact IH|reflexivity].
Qed.

Lemma free_file_other ext file e :
  ext <> ".spr" -> ext <> ".pal" ->
  gl (free_file ext file e) = gl e /\
  exists evs, events (free_file ext file e) = (events e ++ evs)%list /\
              Forall (fun ev => is_gl_call ev = false) evs.
Proof.
  intros Hs Hp. unfold free_file.
  rewrite (eqb_ne _ _ Hs), (eqb_ne _ _ Hp).
  destruct file; try (split; [reflexivity | exists []; split; [now rewrite app_nil_r | constructor]]).
  destruct (match_blob (VStr s)).
  - split; [reflexivity|]. exists [RevokeObjectURL s]. split; [reflexivity|].
    repeat constructor.
  - split; [reflexivity | exists []; split; [now rewrite app_nil_r | constructor]].
Qed.

(** C8, as the code has it.  For every key: when the last ['.'] of the key
    is not its last character, the discriminator is the lower-cased substring
    from the last ['.'] to the end; a key without a ['.'], and a key that
    ends in ['.'], get the empty discriminator.  Removing any key whose
    discriminator is neither [".spr"] nor [".pal"] in the plain version
    makes no call into the WebGL context (neither a liveness query nor a
    texture release), leaves the context as it is, and completes: the call
    returns and the key is gone afterwards. *)
Theorem discriminator_of_key (key : string) (w : World) :
  (from_last_dot key <> Some "." -> extension key = spec_discriminator key) /\
  (from_last_dot key = None -> extension key = "") /\
  (from_last_dot key = Some "." -> extension key = "") /\
  (extension key <> ".spr" -> extension key <> ".pal" ->
     gl (env (remove_in plain key w)) = gl (env w) /\
     (exists evs, events (env (remove_in plain key w)) = (events (env w) ++ evs)%list /\
                  Forall (fun ev => is_gl_call ev = false) evs) /\
     fst (remove_call plain key w) = Returned tt /\
     exist_in plain key (remove_in plain key w) = false).
Proof.
  unfold extension, spec_discriminator. rewrite match_ext_from_last_dot.
  split; [|split; [|split]].
  - destruct (from_last_dot key) as [suffix|]; [|reflexivity].
    intros H. destruct (String.eqb_spec suffix "."); [congruence|reflexivity].
  - now intros ->.
  - now intros ->.
  - intros Hs Hp. rewrite <- match_ext_from_last_dot in Hs, Hp.
    fold (extension key) in Hs, Hp. rewrite exist_in_has.
    destruct (JSMap.get key (_memory w)) as [item|] eqn:E.
    + destruct (remove_in_present plain _ _ _ E) as (Hm & _ & _ & Henv).
      rewrite Hm, Henv. unfold reclaim.
      destruct (truthy (MemoryItem.data (deref w item))).
      * destruct (free_file_other (extension key) (MemoryItem.data (deref w item))
                    (env w) Hs Hp) as [Hg Hev].
        split; [exact Hg|]. split; [exact Hev|].
        split; [reflexivity | apply has_delete_eq].
      * split; [reflexivity|]. split; [|split; [reflexivity | apply has_delete_eq]].
        exists []. split; [now rewrite app_nil_r | constructor].
    + rewrite (remove_in_absent plain _ _ E).
      split; [reflexivity|]. split; [|split; [reflexivity | now apply has_false]].
      exists []. split; [now rewrite app_nil_r | constructor].
Qed.

(** C8 at work on ["c.dat"], loaded as a blob URL. *)
Lemma discriminator_of_key_witness :
  extension "c.dat" = spec_discriminator "c.dat" /\
  gl (env (remove_in plain "c.dat" (loaded_blob plain))) = gl (env (loaded_blob plain)) /\
  exist_in plain "c.dat" (remove_in plain "c.dat" (loaded_blob plain)) = false.
Proof.
  destruct (discriminator_of_key "c.dat" (loaded_blob plain)) as (H1 & _ & _ & H2).
  split; [apply H1; discriminate|].
  destruct H2 as (Hg & _ & _ & Hx); [discriminate | discriminate |].
  split; [exact Hg | exact Hx].
Defined.

(** C8 as it is stated fails on a key that ends in a dot: the substring from
    the last ['.'] of ["a."] is ["."], and the code finds no extension. *)
Lemma discriminator_of_key_ending_in_dot :
  spec_discriminator "a." = "." /\ extension "a." = "".
Proof. split; reflexivity. Qed.

(** ** Slots: lookup or creation *)

Lemma Pooled_slot_result filename w : slot_result filename w (Pooled.slot filename w).
Proof.
  unfold slot_result, Pooled.slot, entry.
  destruct (JSMap.get filename (_memory w)) as [item|] eqn:E; simpl.
  - now rewrite E.
  - destruct (_memoryItemPool w) as [|item pool]; simpl.
    + rewrite get_set_eq. unfold deref. simpl. now rewrite lookup_insert_eq.
    + rewrite get_set_eq. unfold deref. simpl. now rewrite lookup_insert_eq.
Qed.

Lemma Plain_slot_result filename w : slot_result filename w (Plain.slot filename w).
Proof.
  unfold slot_result, Plain.slot, entry.
  destruct (JSMap.get filename (_memory w)) as [item|] eqn:E; simpl.
  - now rewrite E.
  - rewrite get_set_eq. unfold deref. simpl. now rewrite lookup_insert_eq.
Qed.

Lemma entry_invoke filename item method w :
  JSMap.get filename (_memory w) = Some item ->
  entry filename (invoke item method w) = Some (fst (method (deref w item))).
Proof.
  intros H. unfold entry. simpl. rewrite H. simpl. now rewrite deref_invoke.
Qed.

(** ** C6: the outcome of [set] *)

(** [set] after its slot has been found or created. *)
Lemma set_in_slot v filename data error w :
  exists r, slot_result filename w r /\
    set_in v filename data error w =
    if truthy error || negb (truthy data)
    then item_onerror (fst r) data (snd r)
    else item_onload (fst r) data (snd r).
Proof.
  destruct v; simpl.
  - exists (Pooled.slot filename w). split; [apply Pooled_slot_result|].
    unfold Pooled.set. now destruct (Pooled.slot filename w).
  - exists (Plain.slot filename w). split; [apply Plain_slot_result|].
    unfold Plain.set. now destruct (Plain.slot filename w).
Qed.

(** C6. For every call [set(key, payload, errorFlag)], in both versions: the
    slot of the key is afterwards in state [Error] if and only if the flag is
    truthy or the payload is falsy, and in state [Loaded] otherwise; the
    outcome is delivered by calling the listeners that wait on that channel
    (the error listeners for [Error], the load listeners for [Loaded]), in
    registration order and with the payload, and by nothing else: these calls
    are all that leaves the module, and the call returns. *)
Theorem set_outcome (v : version) (filename : string) (data error : value) (w : World) :
  let waiting := MemoryItem.listeners (default MemoryItem.new (entry filename w)) in
  let w' := set_in v filename data error w in
  exists i, entry filename w' = Some i /\
    (MemoryItem.state i = MemoryItem.Error <->
       truthy error = true \/ truthy data = false) /\
    (MemoryItem.state i = MemoryItem.Loaded <->
       ~ (truthy error = true \/ truthy data = false)) /\
    MemoryItem.payload i = data /\
    gl (env w') = gl (env w) /\
    events (env w') =
      (events (env w) ++
       MemoryItem.fire
         (if truthy error || negb (truthy data)
          then MemoryItem.ErrorEvent else MemoryItem.LoadEvent)
         data waiting)%list.
Proof.
  intros waiting w'. subst waiting w'.
  destruct (set_in_slot v filename data error w) as (r & (Hg & Hd & _ & _ & He) & ->).
  destruct (truthy error) eqn:Ee, (truthy data) eqn:Ed; simpl;
    (eexists; split;
     [unfold item_onerror, item_onload; apply entry_invoke, Hg
     | simpl; rewrite He, Hd; repeat split; intros; try tauto; try discriminate;
       try (intros [?|?]; discriminate); auto;
       try match goal with H : _ \/ _ |- _ => destruct H; discriminate end ]).
Qed.

(** C6 at work: the loader reports a failure for ["b.pal"], which has one
    load listener waiting and no error listener; the slot is in state
    [Error] and no listener is called. *)
Lemma set_outcome_witness :
  exists i, entry "b.pal" (set_in plain "b.pal" VNull (VStr "404") (pending_palette plain)) = Some i /\
            MemoryItem.state i = MemoryItem.Error.
Proof.
  destruct (set_outcome plain "b.pal" VNull (VStr "404") (pending_palette plain))
    as (i & Hi & Herr & _).
  exists i. split; [exact Hi|]. apply Herr. left. reflexivity.
Defined.

(** ** C2: the time of the last access *)

(** C2, as the code has it.  In the plain version every call
    [get(key, onload, onerror)], for any key and any state of the cache,
    leaves the timestamps as they are; there the timestamp of a key is what
    the caller records with [updateAccessTime(key, time)], which sets the
    timestamp of that key to [time] and changes no other timestamp. *)
Theorem get_records_access (filename : string) (onload onerror : option callback)
    (date_now : Z) (w : World) :
  _lastAccessTime (snd (get_in plain filename onload onerror date_now w)) = _lastAccessTime w /\
  lastAccess filename (Plain.updateAccessTime filename date_now w) = Some date_now /\
  (forall k, k <> filename ->
     lastAccess k (Plain.updateAccessTime filename date_now w) = lastAccess k w).
Proof.
  split; [|split].
  - simpl. unfold Plain.get.
    pose proof (Plain_slot_result filename w) as (_ & _ & Ht & _).
    destruct (Plain.slot filename w) as [item w1]. simpl in *.
    now destruct onload, onerror.
  - unfold lastAccess. simpl. apply lookup_insert_eq.
  - intros k Hk. unfold lastAccess. simpl. now apply lookup_insert_ne.
Qed.

(** C2 as it is stated fails in the plain version: after [get("a.txt")] at
    time 5 on the fresh module the key has no timestamp. *)
Lemma plain_get_records_nothing :
  lastAccess "a.txt" (snd (get_in plain "a.txt" None None 5 (init ∅))) = None.
Proof. reflexivity. Qed.

(** ** Lists *)

Lemma elem_of_List_filter {A} (f : A -> bool) (l : list A) (x : A) :
  x ∈ List.filter f l <-> x ∈ l /\ f x = true.
Proof. rewrite !list_elem_of_In. apply filter_In. Qed.

Lemma NoDup_List_filter {A} (f : A -> bool) (l : list A) :
  NoDup l -> NoDup (List.filter f l).
Proof.
  induction l as [|x l IH]; simpl; [trivial|].
  rewrite NoDup_cons. intros [Hx Hl]. destruct (f x); [|auto].
  rewrite NoDup_cons. split; [|auto].
  rewrite elem_of_List_filter. tauto.
Qed.

Lemma List_filter_ext_elem {A} (f g : A -> bool) (l : list A) :
  (forall x, x ∈ l -> f x = g x) -> List.filter f l = List.filter g l.
Proof.
  intros H. apply filter_ext_in. intros x Hx. apply H. now apply list_elem_of_In.
Qed.

Lemma fold_left_ext_elem {A B} (f g : A -> B -> A) (l : list B) (a : A) :
  (forall a x, x ∈ l -> f a x = g a x) -> fold_left f l a = fold_left g l a.
Proof.
  revert a. induction l as [|x l IH]; intros a H; simpl; [reflexivity|].
  rewrite (H a x) by left. apply IH. intros a' y Hy. apply H. now right.
Qed.

(** ** The entries of a map with distinct keys *)

Section JSMap_entries.
Context {V : Type}.
Implicit Types (m : JSMap.t V) (k : string) (v : V).

Lemma get_entry k v m : NoDup (JSMap.keys m) -> (k, v) ∈ m -> JSMap.get k m = Some v.
Proof.
  induction m as [|[k0 v0] m IH]; simpl.
  - intros _ H. now apply elem_of_nil in H.
  - rewrite NoDup_cons, elem_of_cons. intros [Hn Hd] [H|H].
    + injection H as -> ->. now rewrite eqb_refl'.
    + destruct (String.eqb_spec k k0) as [->|Hne]; [|auto].
      exfalso. apply Hn. unfold JSMap.keys.
      apply list_elem_of_fmap. now exists (k0, v).
Qed.

Lemma entry_get k v m : JSMap.get k m = Some v -> (k, v) ∈ m.
Proof.
  induction m as [|[k0 v0] m IH]; simpl; [discriminate|].
  destruct (String.eqb_spec k k0) as [->|Hne].
  - intros [= ->]. left.
  - intros H. right. auto.
Qed.

Lemma snd_delete_perm k v m :
  NoDup (JSMap.keys m) -> JSMap.get k m = Some v ->
  map snd m ≡ₚ v :: map snd (JSMap.delete k m).
Proof.
  induction m as [|[k0 v0] m IH]; simpl; [discriminate|].
  rewrite NoDup_cons. intros [Hn Hd].
  destruct (String.eqb_spec k k0) as [->|Hne].
  - intros [= ->]. rewrite delete_absent; [reflexivity|]. now apply get_None_keys.
  - intros H. simpl. rewrite (IH Hd H). apply Permutation_swap.
Qed.

End JSMap_entries.

(** ** Removal keeps a world well formed and leaves the other slots alone *)

Lemma refs_distinct k k' item w :
  wf w -> JSMap.get k (_memory w) = Some item ->
  JSMap.get k' (_memory w) = Some item -> k = k'.
Proof.
  intros (Hk & Hr & _). unfold distinct_keys, refs in *.
  apply NoDup_app in Hr as (Hr & _ & _).
  induction (_memory w) as [|[k0 v0] m IH]; simpl in *; [discriminate|].
  apply NoDup_cons in Hk as [Hk0 Hk]. apply NoDup_cons in Hr as [Hr0 Hr].
  destruct (String.eqb_spec k k0) as [->|Hne], (String.eqb_spec k' k0) as [->|Hne'];
    try reflexivity.
  - intros [= ->] H'. exfalso. apply Hr0.
    apply list_elem_of_fmap. exists (k', item). split; [reflexivity|]. now apply entry_get.
  - intros H [= ->]. exfalso. apply Hr0.
    apply list_elem_of_fmap. exists (k, item). split; [reflexivity|]. now apply entry_get.
  - auto.
Qed.

Lemma wf_remove v filename w : wf w -> wf (remove_in v filename w).
Proof.
  intros Hwf. destruct (JSMap.get filename (_memory w)) as [item|] eqn:E.
  2: { now rewrite remove_in_absent. }
  destruct Hwf as (Hk & Hr & Hn). unfold wf, distinct_keys, refs in *.
  pose proof (snd_delete_perm _ _ _ Hk E) as Hp.
  destruct v;
    [rewrite (remove_in_pooled _ _ _ E) | rewrite (remove_in_plain _ _ _ E)];
    simpl; (split; [now apply NoDup_keys_delete|]).
  - rewrite <- !Permutation_middle, !app_comm_cons, <- !Hp. split; assumption.
  - rewrite Hp in Hr, Hn. simpl in Hr, Hn.
    apply NoDup_cons in Hr as [_ Hr]. apply Forall_cons in Hn as [_ Hn]. split; assumption.
Qed.

Lemma exist_remove_ne v k k' w :
  k <> k' -> exist_in v k' (remove_in v k w) = exist_in v k' w.
Proof.
  intros Hne. rewrite !exist_in_has.
  destruct (JSMap.get k (_memory w)) as [item|] eqn:E.
  - destruct (remove_in_present v _ _ _ E) as (-> & _). now apply has_delete_ne.
  - now rewrite remove_in_absent.
Qed.

Lemma lastAccess_remove_ne v k k' w :
  k <> k' -> lastAccess k' (remove_in v k w) = lastAccess k' w.
Proof.
  intros Hne. unfold lastAccess.
  destruct (JSMap.get k (_memory w)) as [item|] eqn:E.
  - destruct (remove_in_present v _ _ _ E) as (_ & -> & _).
    destruct v; [reflexivity | now apply lookup_delete_ne].
  - now rewrite remove_in_absent.
Qed.

Lemma entry_remove_ne v k k' w :
  wf w -> k <> k' -> entry k' (remove_in v k w) = entry k' w.
Proof.
  intros Hwf Hne.
  destruct (JSMap.get k (_memory w)) as [item|] eqn:E.
  2: { now rewrite remove_in_absent. }
  unfold entry.
  destruct v;
    [rewrite (remove_in_pooled _ _ _ E) | rewrite (remove_in_plain _ _ _ E)];
    simpl; rewrite (get_delete_ne _ _ _ Hne); [|reflexivity].
  destruct (JSMap.get k' (_memory w)) as [item'|] eqn:E'; [|reflexivity].
  simpl. f_equal. unfold deref. simpl. rewrite lookup_insert_ne; [reflexivity|].
  intros ->. apply Hne. exact (refs_distinct _ _ _ _ Hwf E E').
Qed.

Lemma env_remove v k w :
  env (remove_in v k w) = reclaim k (payload_of k w) (env w).
Proof.
  unfold payload_of, entry.
  destruct (JSMap.get k (_memory w)) as [item|] eqn:E.
  - now destruct (remove_in_present v _ _ _ E) as (_ & _ & _ & ->).
  - now rewrite remove_in_absent.
Qed.

Lemma idle_key_remove_ne v k k' tick w :
  wf w -> k <> k' -> idle_key (remove_in v k w) tick k' = idle_key w tick k'.
Proof.
  intros Hwf Hne. unfold idle_key.
  now rewrite entry_remove_ne, lastAccess_remove_ne.
Qed.

(** ** Removing a list of keys *)

Lemma wf_evict_all v keys w : wf w -> wf (evict_all v keys w).
Proof.
  revert w. induction keys as [|k keys IH]; intros w Hwf; simpl; [assumption|].
  apply IH. now apply wf_remove.
Qed.

Lemma exist_evict_all v keys k w :
  exist_in v k (evict_all v keys w) = true <-> exist_in v k w = true /\ k ∉ keys.
Proof.
  revert w. induction keys as [|k0 keys IH]; intros w; simpl.
  - split; [intros H; split; [assumption | apply not_elem_of_nil] | tauto].
  - fold (evict_all v keys (remove_in v k0 w)). rewrite IH, not_elem_of_cons.
    destruct (decide (k0 = k)) as [->|Hne].
    + assert (exist_in v k (remove_in v k w) = false) as ->.
      { rewrite exist_in_has.
        destruct (JSMap.get k (_memory w)) as [item|] eqn:E.
        - destruct (remove_in_present v _ _ _ E) as (-> & _). apply has_delete_eq.
        - rewrite remove_in_absent by assumption. now apply has_false. }
      split; [intros [? _]; discriminate | tauto].
    + rewrite (exist_remove_ne v _ _ _ Hne). split; intros (? & ?); repeat split; auto.
      tauto.
Qed.

Lemma env_evict_all v keys w :
  wf w -> NoDup keys -> env (evict_all v keys w) = reclaim_all keys w (env w).
Proof.
  revert w. induction keys as [|k keys IH]; intros w Hwf Hnd; simpl; [reflexivity|].
  apply NoDup_cons in Hnd as [Hk Hnd].
  fold (evict_all v keys (remove_in v k w)).
  rewrite IH by (try apply wf_remove; assumption).
  rewrite env_remove. unfold reclaim_all.
  apply fold_left_ext_elem. intros e k' Hk'.
  unfold payload_of. rewrite entry_remove_ne; [reflexivity | assumption |].
  intros ->. contradiction.
Qed.


(** ** The sweep of the plain version removes the idle keys, in order *)

Lemma eligible_keys now w :
  distinct_keys w ->
  eligible now w = List.filter (idle_key w (now - _rememberTime)) (JSMap.keys (_memory w)).
Proof.
  intros Hk. unfold eligible, JSMap.keys.
  assert (H : forall e, e ∈ _memory w -> e ∈ _memory w) by auto.
  revert H. generalize (_memory w) at 1 3 4. intros m.
  induction m as [|[k item] m IH]; intros H; simpl; [reflexivity|].
  assert (Hi : idle_key w (now - _rememberTime) k
               = Plain.idle w (now - _rememberTime) (k, item)).
  { unfold idle_key, Plain.idle, lastAccess.
    rewrite (entry_Some k item); [reflexivity|].
    apply get_entry; [exact Hk | apply H; left]. }
  rewrite Hi. destruct (Plain.idle w (now - _rememberTime) (k, item)); simpl;
    rewrite IH; auto; intros e He; apply H; now right.
Qed.

Lemma elem_of_eligible now k w :
  distinct_keys w ->
  k ∈ eligible now w <->
  JSMap.has k (_memory w) = true /\ idle_key w (now - _rememberTime) k = true.
Proof.
  intros Hk. rewrite (eligible_keys _ _ Hk), elem_of_List_filter, has_true. tauto.
Qed.

Lemma NoDup_eligible now w : distinct_keys w -> NoDup (eligible now w).
Proof. intros Hk. rewrite (eligible_keys _ _ Hk). now apply NoDup_List_filter. Qed.

(** The loop of the plain [clean], which deletes from the map it walks:
    it removes the keys that were idle when the loop began, each once. *)
Lemma Plain_for_of_sweep tick keys w :
  wf w -> NoDup keys ->
  fold_left
    (fun w filename =>
       match JSMap.get filename (_memory w) with
       | Some item =>
           if MemoryItem.complete (deref w item)
              && js_lt (_lastAccessTime w !! filename) tick
           then Plain.remove filename w
           else w
       | None => w
       end) keys w
  = evict_all plain (List.filter (idle_key w tick) keys) w.
Proof.
  revert w. induction keys as [|k keys IH]; intros w Hwf Hnd; [reflexivity|].
  apply NoDup_cons in Hnd as [Hk Hnd].
  cbn [fold_left List.filter].
  assert (Hstep : match JSMap.get k (_memory w) with
                  | Some item =>
                      if MemoryItem.complete (deref w item)
                         && js_lt (_lastAccessTime w !! k) tick
                      then Plain.remove k w
                      else w
                  | None => w
                  end = if idle_key w tick k then Plain.remove k w else w).
  { unfold idle_key, entry, lastAccess. now destruct (JSMap.get k (_memory w)). }
  rewrite Hstep. destruct (idle_key w tick k).
  - rewrite IH by (try apply (wf_remove plain); assumption).
    cbn [evict_all fold_left remove_in]. f_equal.
    apply List_filter_ext_elem. intros k' Hk'.
    apply (idle_key_remove_ne plain); [assumption|]. intros ->. contradiction.
  - now apply IH.
Qed.

Lemma clean_in_evicts now w :
  wf w -> _lastCheckTick w + _cleanUpInterval <= now ->
  clean_in plain now w = with_lastCheckTick now (evict_all plain (eligible now w) w).
Proof.
  intros Hwf Hnow. simpl. unfold Plain.clean.
  destruct (Z.gtb_spec (_lastCheckTick w + _cleanUpInterval) now); try lia.
  unfold Plain.for_of_memory. rewrite Plain_for_of_sweep.
  - now rewrite <- eligible_keys by apply Hwf.
  - assumption.
  - apply Hwf.
Qed.

(** ** One pass of the plain version evicts the idle keys, each once *)

(** X19. In the plain version and in a well-formed world (as is every
    world that calls can reach, [wf_run]), a sweep that is not rate limited
    removes exactly the keys that are idle when the pass begins, each exactly
    once, although it deletes from the map it is walking: the pass is the
    removal, one key after the other, of a list of distinct keys; the list
    holds a key if and only if the key is present and idle at the start;
    every key of the list is still present when its turn comes, so its
    removal is a real eviction; afterwards a key is present if and only if it
    was present and is not in the list; and what the pass releases is the
    reclamation of each listed key, once, with the payload its slot held at
    the start. *)
Theorem sweep_evicts_eligible (now : Z) (w : World) :
  wf w ->
  _lastCheckTick w + _cleanUpInterval <= now ->
  let keys := eligible now w in
  clean_in plain now w = with_lastCheckTick now (evict_all plain keys w) /\
  NoDup keys /\
  (forall k, k ∈ keys <->
             exist_in plain k w = true /\ idle_key w (now - _rememberTime) k = true) /\
  (forall n k, keys !! n = Some k ->
               exist_in plain k (evict_all plain (take n keys) w) = true) /\
  (forall k, exist_in plain k (clean_in plain now w) = true <->
             exist_in plain k w = true /\ k ∉ keys) /\
  env (clean_in plain now w) = reclaim_all keys w (env w).
Proof.
  intros Hwf Hnow keys. subst keys.
  pose proof Hwf as (Hk & _).
  pose proof (NoDup_eligible now w Hk) as Hnd.
  rewrite (clean_in_evicts now w Hwf Hnow).
  split; [reflexivity|]. split; [exact Hnd|]. split; [|split; [|split]].
  - intros k. rewrite exist_in_has. now apply elem_of_eligible.
  - intros n k Hn. apply exist_evict_all. split.
    + rewrite exist_in_has. apply (elem_of_eligible now k w Hk).
      apply list_elem_of_lookup. eauto.
    + rewrite elem_of_take. intros (j & Hj & Hlt).
      pose proof (NoDup_lookup _ _ _ _ Hnd Hn Hj). lia.
  - intros k. rewrite <- exist_evict_all. now rewrite !exist_in_has.
  - simpl. now apply env_evict_all.
Qed.

(** X19 at work: the sweep at 150000 of the world where ["a.spr"] was
    requested at 0 and loaded evicts that key, and the textures 1 and 3 are
    released once each although two frames share texture 1. *)
Lemma sweep_evicts_eligible_witness :
  eligible 150000 (loaded_sprite plain) = ["a.spr"] /\
  exist_in plain "a.spr" (clean_in plain 150000 (loaded_sprite plain)) = false /\
  events (env (clean_in plain 150000 (loaded_sprite plain))) =
    [Call 7%nat sprite; IsTexture 1%nat; DeleteTexture 1%nat; IsTexture 2%nat;
     IsTexture 1%nat; IsTexture 3%nat; DeleteTexture 3%nat].
Proof.
  destruct (sweep_evicts_eligible 150000 (loaded_sprite plain))
    as (_ & _ & _ & _ & Hx & Henv).
  - apply (bool_decide_unpack _). vm_compute. exact I.
  - discriminate.
  - split; [reflexivity|]. split.
    + destruct (exist_in plain "a.spr" (clean_in plain 150000 (loaded_sprite plain))) eqn:E;
        [|reflexivity].
      apply Hx in E as [_ E]. exfalso. apply E. left.
    + rewrite Henv. reflexivity.
Defined.

(** ** C1: which keys a sweep evicts *)

Lemma idle_key_true k tick w :
  idle_key w tick k = true <->
  completed k w /\ exists t, lastAccess k w = Some t /\ t < tick.
Proof.
  unfold idle_key, completed. destruct (entry k w) as [i|].
  - rewrite andb_true_iff. unfold js_lt. destruct (lastAccess k w) as [t|].
    + rewrite Z.ltb_lt. split.
      * intros [Hc Ht]. split; eauto.
      * intros [(i' & [= <-] & Hc) (t' & [= <-] & Ht)]. auto.
    + split; [intros [_ ?]; discriminate | intros [_ (? & ? & _)]; discriminate].
  - split; [discriminate | intros [(? & ? & _) _]; discriminate].
Qed.

(** C1, as the code of the plain version has it.  For every key present in
    a well-formed world (as is every world that calls can reach, [wf_run])
    and every sweep [clean(gl, now)] of the plain version that is not rate
    limited: the key is gone after the pass if and only if its slot is
    completed ([Loaded] or [Error], not [Pending]) and the key has a
    timestamp strictly below [now - _rememberTime].  A key whose last access
    is exactly [_rememberTime] old, and a key without timestamp, stay. *)
Theorem sweep_eviction (now : Z) (k : string) (w : World) :
  wf w ->
  exist_in plain k w = true ->
  _lastCheckTick w + _cleanUpInterval <= now ->
  (exist_in plain k (clean_in plain now w) = false <->
   completed k w /\ exists t, lastAccess k w = Some t /\ t < now - _rememberTime).
Proof.
  intros Hwf Hk Hnow.
  rewrite <- idle_key_true, (clean_in_evicts now w Hwf Hnow).
  assert (Hx : exist_in plain k (with_lastCheckTick now (evict_all plain (eligible now w) w))
               = exist_in plain k (evict_all plain (eligible now w) w)) by reflexivity.
  rewrite Hx. pose proof (exist_evict_all plain (eligible now w) k w) as He.
  pose proof (elem_of_eligible now k w (proj1 Hwf)) as Hel.
  rewrite exist_in_has in Hk.
  destruct (exist_in plain k (evict_all plain (eligible now w) w)).
  - split; [discriminate|]. intros Hi. exfalso.
    apply He; [reflexivity|]. apply Hel. auto.
  - split; [intros _|reflexivity].
    destruct (decide (k ∈ eligible now w)) as [Hin|Hout].
    + now apply Hel in Hin.
    + rewrite exist_in_has in He. destruct He as [_ He].
      discriminate He. auto.
Qed.

(** C1 at work in the plain version: ["a.txt"], requested and reported at 0
    and loaded, is evicted by the sweep at 150000. *)
Lemma sweep_eviction_witness :
  exist_in plain "a.txt" (clean_in plain 150000 (loaded_text plain)) = false.
Proof.
  apply (sweep_eviction 150000 "a.txt" (loaded_text plain)).
  - apply (bool_decide_unpack _). vm_compute. exact I.
  - reflexivity.
  - discriminate.
  - split.
    + eexists. split; reflexivity.
    + exists 0. split; reflexivity.
Defined.

(** C1 as it is stated fails at the limit.  In the plain version, after
    [get("a.txt")], [updateAccessTime("a.txt", 0)] and [set("a.txt", "text")]:
    the key is present and completed, the sweep at 120000 is not rate limited,
    the last access (at 0) is at most [now - _rememberTime], and the key is
    still there after the pass. *)
Lemma sweep_keeps_key_at_the_limit :
  exist_in plain "a.txt" (loaded_text plain) = true /\
  _lastCheckTick (loaded_text plain) + _cleanUpInterval <= 120000 /\
  completed "a.txt" (loaded_text plain) /\
  (exists t, lastAccess "a.txt" (loaded_text plain) = Some t /\ t <= 120000 - _rememberTime) /\
  exist_in plain "a.txt" (clean_in plain 120000 (loaded_text plain)) = true.
Proof.
  split; [reflexivity|]. split; [discriminate|]. split; [|split; [|reflexivity]].
  - eexists. split; reflexivity.
  - exists 0. split; [reflexivity | discriminate].
Qed.

(** ** Maps of objects read through the store *)

Section read_through.
Context {A B : Type}.
Implicit Types (m : JSMap.t A) (k : string) (f g : A -> B).

Lemma get_read_through f k m :
  JSMap.get k (map (fun e => (fst e, f (snd e))) m) = f <$> JSMap.get k m.
Proof.
  induction m as [|[k0 v0] m IH]; simpl; [reflexivity|].
  now destruct (k =? k0)%string.
Qed.

Lemma keys_read_through f m :
  JSMap.keys (map (fun e => (fst e, f (snd e))) m) = JSMap.keys m.
Proof. unfold JSMap.keys. rewrite map_map. reflexivity. Qed.

Lemma has_read_through f k m :
  JSMap.has k (map (fun e => (fst e, f (snd e))) m) = JSMap.has k m.
Proof. unfold JSMap.has. rewrite get_read_through. now destruct (JSMap.get k m). Qed.

Lemma delete_read_through f k m :
  JSMap.delete k (map (fun e => (fst e, f (snd e))) m)
  = map (fun e => (fst e, f (snd e))) (JSMap.delete k m).
Proof.
  induction m as [|[k0 v0] m IH]; simpl; [reflexivity|].
  destruct (k =? k0)%string; simpl; now rewrite IH.
Qed.

Lemma set_read_through f k v m :
  JSMap.set k (f v) (map (fun e => (fst e, f (snd e))) m)
  = map (fun e => (fst e, f (snd e))) (JSMap.set k v m).
Proof.
  induction m as [|[k0 v0] m IH]; simpl; [reflexivity|].
  destruct (k =? k0)%string; simpl; now rewrite ?IH.
Qed.

Lemma read_through_ext f g m :
  (forall r, r ∈ map snd m -> f r = g r) ->
  map (fun e => (fst e, f (snd e))) m = map (fun e => (fst e, g (snd e))) m.
Proof.
  induction m as [|[k0 v0] m IH]; simpl; [reflexivity|].
  intros H. rewrite (H v0) by left. f_equal. apply IH.
  intros r Hr. apply H. now right.
Qed.

(** One object is updated: the key that holds it sees the new state, the
    other keys see no change, as no object is held twice. *)
Lemma read_through_update f g k (item : A) m :
  NoDup (JSMap.keys m) -> NoDup (map snd m) ->
  JSMap.get k m = Some item ->
  (forall r, r <> item -> g r = f r) ->
  map (fun e => (fst e, g (snd e))) m
  = JSMap.set k (g item) (map (fun e => (fst e, f (snd e))) m).
Proof.
  intros Hk Hr Hget Hg.
  induction m as [|[k0 v0] m IH]; simpl in *; [discriminate|].
  apply NoDup_cons in Hk as [Hk0 Hk]. apply NoDup_cons in Hr as [Hr0 Hr].
  destruct (String.eqb_spec k k0) as [->|Hne].
  - injection Hget as ->. f_equal. apply read_through_ext.
    intros r Hin. apply Hg. intros ->. contradiction.
  - rewrite Hg.
    + f_equal. now apply IH.
    + intros ->. apply Hr0. apply list_elem_of_fmap. exists (k, item).
      split; [reflexivity|]. now apply entry_get.
Qed.

End read_through.

Lemma set_absent {V} (k : string) (v : V) (m : JSMap.t V) :
  JSMap.get k m = None -> JSMap.set k v m = (m ++ [(k, v)])%list.
Proof.
  induction m as [|[k0 v0] m IH]; simpl; [reflexivity|].
  destruct (k =? k0)%string; [discriminate|]. intros H. now rewrite IH.
Qed.

Lemma get_view k w : JSMap.get k (entries (view w)) = entry k w.
Proof. unfold view, entry. simpl. apply get_read_through. Qed.

Lemma keys_view w : JSMap.keys (entries (view w)) = JSMap.keys (_memory w).
Proof. unfold view. simpl. apply keys_read_through. Qed.

Lemma has_view k w : JSMap.has k (entries (view w)) = JSMap.has k (_memory w).
Proof. unfold view. simpl. apply has_read_through. Qed.

Lemma wf_init g : wf (init g).
Proof.
  unfold wf, distinct_keys, refs. simpl. repeat split; constructor.
Qed.

(** ** Each version refines the cache by value *)

Lemma deref_heap w u r : heap u = heap w -> deref u r = deref w r.
Proof. unfold deref. now intros ->. Qed.

Lemma deref_heap_insert w u item i r :
  heap u = <[item := i]> (heap w) ->
  deref u r = if decide (item = r) then i else deref w r.
Proof.
  unfold deref. intros ->. rewrite lookup_insert. now destruct (decide (item = r)).
Qed.

(** The view after a slot has been created for a key, on an object that no
    key holds. *)
Lemma view_created k item w u :
  JSMap.get k (_memory w) = None ->
  item ∉ map snd (_memory w) ->
  _memory u = JSMap.set k item (_memory w) ->
  heap u = <[item := MemoryItem.new]> (heap w) ->
  view u = mkCache (JSMap.set k MemoryItem.new (entries (view w)))
                   (_lastAccessTime u) (_lastCheckTick u) (env u).
Proof.
  intros E Hout Hm Hh. unfold view. rewrite Hm. cbn [entries]. f_equal.
  rewrite <- (set_read_through (deref u)).
  rewrite (deref_heap_insert w u item MemoryItem.new item Hh).
  destruct (decide (item = item)); [|congruence]. f_equal.
  apply read_through_ext. intros r Hin.
  rewrite (deref_heap_insert w u item MemoryItem.new r Hh).
  destruct (decide (item = r)) as [<-|]; [contradiction|reflexivity].
Qed.

(** The view after the object of a key has been updated in place. *)
Lemma view_updated k item i w u :
  wf w ->
  JSMap.get k (_memory w) = Some item ->
  _memory u = _memory w ->
  heap u = <[item := i]> (heap w) ->
  view u = mkCache (JSMap.set k i (entries (view w)))
                   (_lastAccessTime u) (_lastCheckTick u) (env u).
Proof.
  intros (Hk & Hr & _) E Hm Hh. unfold view. rewrite Hm. cbn [entries]. f_equal.
  unfold refs in Hr. apply NoDup_app in Hr as (Hr & _ & _).
  rewrite (read_through_update (deref w) (deref u) k item) by
    (try assumption; intros r Hne; rewrite (deref_heap_insert w u item i r Hh);
     destruct (decide (item = r)); congruence).
  rewrite (deref_heap_insert w u item i item Hh).
  destruct (decide (item = item)); congruence.
Qed.

(** The view after the slot of a key has been deleted, its object being
    left alone or updated. *)
Lemma view_deleted k item w u :
  wf w ->
  JSMap.get k (_memory w) = Some item ->
  _memory u = JSMap.delete k (_memory w) ->
  (heap u = heap w \/ exists i, heap u = <[item := i]> (heap w)) ->
  view u = mkCache (JSMap.delete k (entries (view w)))
                   (_lastAccessTime u) (_lastCheckTick u) (env u).
Proof.
  intros (Hk & Hr & _) E Hm Hh. unfold view. rewrite Hm. cbn [entries]. f_equal.
  rewrite delete_read_through. apply read_through_ext. intros r Hin.
  destruct Hh as [Hh|[i Hh]]; [now apply deref_heap|].
  rewrite (deref_heap_insert w u item i r Hh).
  destruct (decide (item = r)) as [<-|]; [|reflexivity].
  exfalso. unfold refs in Hr. apply NoDup_app in Hr as (Hr & _ & _).
  rewrite (snd_delete_perm _ _ _ Hk E) in Hr. apply NoDup_cons in Hr as [Hr _].
  contradiction.
Qed.

Lemma refs_created k item (m : JSMap.t ref) pool :
  JSMap.get k m = None ->
  (map snd (JSMap.set k item m) ++ pool)%list = (map snd m ++ item :: pool)%list.
Proof.
  intros E. rewrite (set_absent _ _ _ E), map_app. simpl. now rewrite <- app_assoc.
Qed.

Lemma slot_in_refines v k w :
  wf w ->
  wf (snd (slot_in v k w)) /\
  JSMap.get k (_memory (snd (slot_in v k w))) = Some (fst (slot_in v k w)) /\
  view (snd (slot_in v k w)) = snd (ByValue.slot k (view w)).
Proof.
  intros Hwf. unfold ByValue.slot. rewrite get_view. unfold entry.
  destruct (JSMap.get k (_memory w)) as [item|] eqn:E.
  { destruct v; simpl; unfold Pooled.slot, Plain.slot; rewrite E; simpl; auto. }
  pose proof Hwf as (Hk & Hr & Hn). unfold wf, distinct_keys, refs in *.
  assert (Hout : next_ref w ∉ (map snd (_memory w) ++ _memoryItemPool w)%list).
  { intros Hin. rewrite Forall_forall in Hn. apply Hn in Hin. lia. }
  assert (Hfresh :
    let u := with_memory (JSMap.set k (next_ref w) (_memory w)) (snd (new_MemoryItem w)) in
    (NoDup (JSMap.keys (_memory u)) /\
     NoDup (map snd (_memory u) ++ _memoryItemPool u) /\
     Forall (fun x => (x < next_ref u)%nat) (map snd (_memory u) ++ _memoryItemPool u)) /\
    JSMap.get k (_memory u) = Some (next_ref w) /\
    view u = mkCache (JSMap.set k MemoryItem.new (entries (view w)))
                     (access (view w)) (lastCheck (view w)) (outside (view w))).
  { intros u. subst u. cbn [_memory _memoryItemPool next_ref with_memory new_MemoryItem
                            with_next_ref store with_heap snd].
    split; [split; [now apply NoDup_keys_set | split]|split].
    - rewrite (refs_created _ _ _ _ E), <- Permutation_middle.
      apply NoDup_cons. split; assumption.
    - rewrite (refs_created _ _ _ _ E), <- Permutation_middle.
      apply Forall_cons. split; [lia|].
      eapply Forall_impl; [exact Hn|]. simpl. intros; lia.
    - apply get_set_eq.
    - etransitivity; [apply (view_created k (next_ref w) w)|reflexivity];
        try reflexivity; try assumption.
      intros Hin. apply Hout. apply elem_of_app. now left. }
  destruct v; simpl; unfold Pooled.slot, Plain.slot; rewrite E.
  - destruct (_memoryItemPool w) as [|item pool] eqn:Ep.
    + rewrite <- Ep in *. exact Hfresh.
    + cbn [fst snd _memory _memoryItemPool next_ref with_memory item_reset store
           with_heap with_pool].
      apply NoDup_app in Hr as Hr'. destruct Hr' as (Hr1 & Hr2 & Hr3).
      split; [split; [now apply NoDup_keys_set | split]|split].
      * now rewrite (refs_created _ _ _ _ E).
      * now rewrite (refs_created _ _ _ _ E).
      * apply get_set_eq.
      * etransitivity; [apply (view_created k item w)|reflexivity];
          try reflexivity; try assumption.
        intros Hin. apply (Hr2 _ Hin). left.
  - exact Hfresh.
Qed.

Lemma wf_same_shape w u :
  _memory u = _memory w -> _memoryItemPool u = _memoryItemPool w ->
  next_ref u = next_ref w -> wf w -> wf u.
Proof. unfold wf, distinct_keys, refs. now intros -> -> ->. Qed.

Lemma invoke_refines k item method w :
  wf w -> JSMap.get k (_memory w) = Some item ->
  wf (invoke item method w) /\
  _memory (invoke item method w) = _memory w /\
  view (invoke item method w) = ByValue.invoke k method (view w).
Proof.
  intros Hwf E. split; [|split].
  - now apply (wf_same_shape w).
  - reflexivity.
  - unfold ByValue.invoke. rewrite get_view, (entry_Some _ _ _ E).
    etransitivity; [apply (view_updated k item (fst (method (deref w item))) w)|];
      try reflexivity; assumption.
Qed.

Lemma listen_refines k item kd f w :
  wf w -> JSMap.get k (_memory w) = Some item ->
  let u := match f with
           | Some f => item_addEventListener item kd f w
           | None => w
           end in
  wf u /\ JSMap.get k (_memory u) = Some item /\
  view u = ByValue.listen k kd f (view w).
Proof.
  intros Hwf E u. subst u. destruct f as [f|]; [|auto].
  destruct (invoke_refines k item (MemoryItem.addEventListener kd f) w Hwf E)
    as (H1 & H2 & H3).
  unfold item_addEventListener. split; [exact H1|]. split; [congruence | exact H3].
Qed.

Lemma data_view k item w :
  JSMap.get k (_memory w) = Some item ->
  ByValue.data k (view w) = MemoryItem.data (deref w item).
Proof. intros E. unfold ByValue.data. now rewrite get_view, (entry_Some _ _ _ E). Qed.

(** Both versions of [get] find or create the slot and register the
    listeners; then the plain one returns the payload and the pooled one
    throws. *)
Lemma get_in_refines v k onload onerror date_now w :
  wf w ->
  let r := get_in v k onload onerror date_now w in
  let c := ByValue.listen k MemoryItem.ErrorEvent onerror
             (ByValue.listen k MemoryItem.LoadEvent onload
                (snd (ByValue.slot k (view w)))) in
  wf (snd r) /\
  view (snd r) = c /\
  fst r = match v with
          | pooled => Thrown (ReferenceError "_lastAccessTime")
          | plain => Returned (ByValue.data k c)
          end.
Proof.
  intros Hwf.
  destruct (slot_in_refines v k w Hwf) as (Hwf1 & E1 & Hv1).
  cbv zeta. rewrite <- Hv1.
  assert (Hshape :
    (let '(item, w1) := slot_in v k w in
     let w2 := match onload with
               | Some f => item_addEventListener item MemoryItem.LoadEvent f w1
               | None => w1
               end in
     let w3 := match onerror with
               | Some f => item_addEventListener item MemoryItem.ErrorEvent f w2
               | None => w2
               end in
     (match v with
      | pooled => Thrown (ReferenceError "_lastAccessTime")
      | plain => Returned (MemoryItem.data (deref w3 item))
      end, w3))
    = get_in v k onload onerror date_now w).
  { destruct v; simpl; unfold Pooled.get, Plain.get;
      now destruct (Pooled.slot k w), (Plain.slot k w). }
  rewrite <- Hshape. clear Hshape.
  destruct (slot_in v k w) as [item w1]. simpl in Hwf1, E1, Hv1 |- *.
  destruct (listen_refines k item MemoryItem.LoadEvent onload w1 Hwf1 E1)
    as (Hwf2 & E2 & Hv2).
  destruct (listen_refines k item MemoryItem.ErrorEvent onerror _ Hwf2 E2)
    as (Hwf3 & E3 & Hv3).
  rewrite <- Hv2, <- Hv3, (data_view k item _ E3).
  split; [assumption|]. split; reflexivity.
Qed.

(** [get] of the plain version, followed by the report of the access. *)
Lemma get_refines k onload onerror date_now w :
  wf w ->
  let r := call_touching (OpGet k onload onerror date_now) w in
  wf (snd r) /\
  fst r = RData (fst (ByValue.get k onload onerror date_now (view w))) /\
  view (snd r) = snd (ByValue.get k onload onerror date_now (view w)).
Proof.
  intros Hwf.
  destruct (get_in_refines plain k onload onerror date_now w Hwf) as (Hwf' & Hv & Hr).
  cbn [get_in fst snd] in Hwf', Hv, Hr. injection Hr as Hr.
  cbv zeta. unfold ByValue.get. cbn [call_touching fst snd].
  rewrite Hr, <- Hv. split; [|split; reflexivity].
  now apply (wf_same_shape _ _ eq_refl eq_refl eq_refl).
Qed.

Lemma set_refines v k data error w :
  wf w ->
  wf (set_in v k data error w) /\
  view (set_in v k data error w) = ByValue.set k data error (view w).
Proof.
  intros Hwf.
  destruct (slot_in_refines v k w Hwf) as (Hwf1 & E1 & Hv1).
  unfold ByValue.set. rewrite <- Hv1.
  assert (Hshape :
    (let '(item, w1) := slot_in v k w in
     if truthy error || negb (truthy data)
     then item_onerror item data w1 else item_onload item data w1)
    = set_in v k data error w).
  { destruct v; reflexivity. }
  rewrite <- Hshape. clear Hshape.
  destruct (slot_in v k w) as [item w1]. simpl in Hwf1, E1, Hv1 |- *.
  unfold item_onerror, item_onload.
  destruct (truthy error || negb (truthy data));
    match goal with
    | |- context [invoke item ?m w1] =>
        destruct (invoke_refines k item m w1 Hwf1 E1) as (H1 & _ & H3)
    end; auto.
Qed.

Lemma remove_refines k w :
  wf w -> view (remove_in plain k w) = ByValue.remove k (view w).
Proof.
  intros Hwf. unfold ByValue.remove. rewrite get_view. unfold entry.
  destruct (JSMap.get k (_memory w)) as [item|] eqn:E; simpl.
  - rewrite (Plain_remove_present _ _ _ E).
    etransitivity; [apply (view_deleted k item w)|reflexivity];
      try reflexivity; try assumption.
    now left.
  - now rewrite (remove_in_absent plain).
Qed.

Lemma evict_all_refines keys w :
  wf w ->
  view (evict_all plain keys w) = fold_left (fun c k => ByValue.remove k c) keys (view w).
Proof.
  revert w. induction keys as [|k keys IH]; intros w Hwf; simpl; [reflexivity|].
  fold (evict_all plain keys (remove_in plain k w)).
  rewrite IH by now apply (wf_remove plain). now rewrite remove_refines.
Qed.

Lemma filter_read_through {A B} (F : A -> B) (f : string * B -> bool)
    (g : string * A -> bool) (m : JSMap.t A) :
  (forall e, f (fst e, F (snd e)) = g e) ->
  map fst (List.filter f (map (fun e => (fst e, F (snd e))) m))
  = map fst (List.filter g m).
Proof.
  intros H. induction m as [|e m IH]; simpl; [reflexivity|].
  rewrite H. destruct (g e); simpl; now rewrite IH.
Qed.

Lemma eligible_view now w :
  map fst (List.filter (ByValue.idle (view w) (now - _rememberTime)) (entries (view w)))
  = eligible now w.
Proof. unfold eligible. apply filter_read_through. reflexivity. Qed.

Lemma clean_refines now w :
  wf w ->
  wf (clean_in plain now w) /\ view (clean_in plain now w) = ByValue.clean now (view w).
Proof.
  intros Hwf. unfold ByValue.clean. cbn [lastCheck view].
  destruct (Z.gtb_spec (_lastCheckTick w + _cleanUpInterval) now) as [Hlt|Hge].
  - rewrite clean_in_limited by lia. auto.
  - rewrite (clean_in_evicts now w Hwf Hge). split.
    + apply (wf_same_shape (evict_all plain (eligible now w) w)); try reflexivity.
      now apply wf_evict_all.
    + fold (view w). rewrite eligible_view, <- (evict_all_refines _ w Hwf).
      reflexivity.
Qed.

(** One call of the plain version, with every access reported, is the call
    on the view. *)
Lemma call_touching_refines o w :
  wf w ->
  wf (snd (call_touching o w)) /\
  fst (call_touching o w) = fst (ByValue.call o (view w)) /\
  view (snd (call_touching o w)) = snd (ByValue.call o (view w)).
Proof.
  intros Hwf. destruct o as [k onload onerror date_now|k data error|k|k|now|re].
  - apply get_refines, Hwf.
  - exact (conj (proj1 (set_refines plain k data error w Hwf))
             (conj eq_refl (proj2 (set_refines plain k data error w Hwf)))).
  - simpl; unfold ByValue.exist, Plain.exist; now rewrite has_view.
  - exact (conj (wf_remove plain k w Hwf) (conj eq_refl (remove_refines k w Hwf))).
  - exact (conj (proj1 (clean_refines now w Hwf))
             (conj eq_refl (proj2 (clean_refines now w Hwf)))).
  - simpl; unfold ByValue.search, Plain.search; now rewrite keys_view.
Qed.

Lemma run_refines ops w :
  wf w ->
  wf (snd (run call_touching ops w)) /\
  fst (run call_touching ops w) = fst (run ByValue.call ops (view w)) /\
  view (snd (run call_touching ops w)) = snd (run ByValue.call ops (view w)).
Proof.
  revert w. induction ops as [|o ops IH]; intros w Hwf; simpl; [auto|].
  destruct (call_touching_refines o w Hwf) as (Hwf1 & Hr1 & Hv1).
  destruct (IH _ Hwf1) as (Hwf2 & Hr2 & Hv2).
  rewrite <- Hv1, Hr1, Hr2. auto.
Qed.

(** ** The sweep of the pooled version *)

Lemma Pooled_collect w tick entries keysToDelete :
  Pooled.collect w tick entries keysToDelete
  = if existsb (fun e => MemoryItem.complete (deref w (snd e))) entries
    then Thrown (ReferenceError "_lastAccessTime")
    else Returned keysToDelete.
Proof.
  induction entries as [|[filename item] entries IH]; simpl; [reflexivity|].
  now destruct (MemoryItem.complete (deref w item)).
Qed.

(** The sweep of the pooled version returns at once when it is rate
    limited, throws when a slot is completed, and otherwise finds nothing to
    remove: it never changes the store. *)
Lemma Pooled_clean now w :
  Pooled.clean now w
  = if _lastCheckTick w + _cleanUpInterval >? now then (Returned tt, w)
    else if existsb (fun e => MemoryItem.complete (deref w (snd e))) (_memory w)
         then (Thrown (ReferenceError "_lastAccessTime"), w)
         else (Returned tt, with_lastCheckTick now w).
Proof.
  unfold Pooled.clean. rewrite Pooled_collect.
  destruct (_ >? _); [reflexivity|]. now destruct (existsb _ _).
Qed.

Lemma clean_in_pooled now w :
  clean_in pooled now w = w \/ clean_in pooled now w = with_lastCheckTick now w.
Proof.
  simpl. rewrite Pooled_clean.
  destruct (_ >? _); [now left|]. destruct (existsb _ _); [now left | now right].
Qed.

(** ** C9: the two versions compared *)

(** C9 fails on the first request.  From the fresh module, [get("a.txt")]
    of the pooled version creates the slot and throws [ReferenceError], the
    name [_lastAccessTime] being bound nowhere in that version, where the
    plain version returns the payload of the new slot, [null]; and after the
    load and a sweep two and a half minutes later the pooled version has
    thrown on the sweep as well where the plain version has returned. *)
Lemma versions_differ_on_get :
  fst (call pooled (OpGet "a.txt" None None 0) (init ∅))
    = RThrown (ReferenceError "_lastAccessTime") /\
  fst (call plain (OpGet "a.txt" None None 0) (init ∅)) = RData VNull /\
  fst (run (call pooled) request_load_sweep (init ∅))
    = [RThrown (ReferenceError "_lastAccessTime"); RVoid;
       RThrown (ReferenceError "_lastAccessTime"); RBool true] /\
  fst (run (call plain) request_load_sweep (init ∅))
    = [RData VNull; RVoid; RVoid; RBool true].
Proof. repeat split; reflexivity. Qed.

(** ** C3: present keys and their timestamps *)

Lemma has_set {V} (k k' : string) (v : V) (m : JSMap.t V) :
  JSMap.has k' (JSMap.set k v m) = (k' =? k)%string || JSMap.has k' m.
Proof.
  unfold JSMap.has. destruct (String.eqb_spec k' k) as [->|Hne].
  - now rewrite get_set_eq.
  - rewrite get_set_ne by congruence. reflexivity.
Qed.

Lemma has_set_present {V} (k k' : string) (v : V) (m : JSMap.t V) :
  JSMap.has k m = true -> JSMap.has k' (JSMap.set k v m) = JSMap.has k' m.
Proof.
  intros H. rewrite has_set. destruct (String.eqb_spec k' k) as [->|]; [|reflexivity].
  now rewrite H.
Qed.

Lemma ByValue_slot_keys k k' c :
  JSMap.has k' (entries (snd (ByValue.slot k c)))
  = (k' =? k)%string || JSMap.has k' (entries c).
Proof.
  unfold ByValue.slot. destruct (JSMap.get k (entries c)) eqn:E; simpl.
  - destruct (String.eqb_spec k' k) as [->|]; [|reflexivity].
    unfold JSMap.has. now rewrite E.
  - apply has_set.
Qed.

Lemma ByValue_slot_present k c :
  JSMap.has k (entries c) = true -> snd (ByValue.slot k c) = c.
Proof.
  unfold ByValue.slot, JSMap.has. now destruct (JSMap.get k (entries c)).
Qed.

Lemma ByValue_slot_access k c : access (snd (ByValue.slot k c)) = access c.
Proof. unfold ByValue.slot. now destruct (JSMap.get k (entries c)). Qed.

Lemma ByValue_invoke_keys k k' method c :
  JSMap.has k' (entries (ByValue.invoke k method c)) = JSMap.has k' (entries c).
Proof.
  unfold ByValue.invoke. destruct (JSMap.get k (entries c)) eqn:E; [|reflexivity].
  simpl. apply has_set_present. unfold JSMap.has. now rewrite E.
Qed.

Lemma ByValue_invoke_access k method c :
  access (ByValue.invoke k method c) = access c.
Proof. unfold ByValue.invoke. now destruct (JSMap.get k (entries c)). Qed.

Lemma ByValue_listen_keys k k' kd f c :
  JSMap.has k' (entries (ByValue.listen k kd f c)) = JSMap.has k' (entries c).
Proof. destruct f; [apply ByValue_invoke_keys | reflexivity]. Qed.

Lemma ByValue_listen_access k kd f c :
  access (ByValue.listen k kd f c) = access c.
Proof. destruct f; [apply ByValue_invoke_access | reflexivity]. Qed.

Lemma timed_invoke k method c : timed c -> timed (ByValue.invoke k method c).
Proof.
  intros H k'. rewrite ByValue_invoke_keys, ByValue_invoke_access. apply H.
Qed.

Lemma timed_remove k c : timed c -> timed (ByValue.remove k c).
Proof.
  intros H k'. unfold ByValue.remove.
  destruct (JSMap.get k (entries c)) eqn:E; [|apply H]. simpl.
  destruct (decide (k = k')) as [->|Hne].
  - now rewrite has_delete_eq.
  - rewrite has_delete_ne, lookup_delete_ne by assumption. apply H.
Qed.

Lemma timed_remove_all keys c :
  timed c -> timed (fold_left (fun c k => ByValue.remove k c) keys c).
Proof.
  revert c. induction keys as [|k keys IH]; intros c H; simpl; [assumption|].
  apply IH. now apply timed_remove.
Qed.

(** The calls that keep every present key timed: all of them, but for a
    [set] that has to create its slot. *)
Lemma timed_call o c :
  timed c ->
  match o with
  | OpSet k _ _ => JSMap.has k (entries c) = true
  | _ => True
  end ->
  timed (snd (ByValue.call o c)).
Proof.
  intros H Hset. destruct o as [k onload onerror date_now|k data error|k|k|now|re];
    simpl; try assumption.
  - unfold ByValue.get, ByValue.touch. cbn [snd]. intros k'. cbn [entries access].
    rewrite !ByValue_listen_keys, !ByValue_listen_access,
      ByValue_slot_keys, ByValue_slot_access.
    destruct (String.eqb_spec k' k) as [->|Hne]; simpl.
    + intros _. rewrite lookup_insert_eq. eauto.
    + intros Hk'. rewrite lookup_insert_ne by congruence. now apply H.
  - unfold ByValue.set. rewrite (ByValue_slot_present _ _ Hset).
    destruct (truthy error || negb (truthy data)); now apply timed_invoke.
  - now apply timed_remove.
  - unfold ByValue.clean. destruct (lastCheck c + _cleanUpInterval >? now); [assumption|].
    intros k'. simpl. now apply timed_remove_all.
Qed.

Lemma timed_run ops w :
  wf w -> timed (view w) ->
  set_finds_slot call_touching ops w = true ->
  timed (view (snd (run call_touching ops w))).
Proof.
  revert w. induction ops as [|o ops IH]; intros w Hwf Ht Hs; simpl; [assumption|].
  simpl in Hs. apply andb_true_iff in Hs as [Ho Hs].
  destruct (call_touching_refines o w Hwf) as (Hwf1 & _ & Hv1).
  apply IH; [assumption| |assumption].
  rewrite Hv1. apply timed_call; [assumption|].
  destruct o; trivial. now rewrite has_view.
Qed.

(** C3, as the code of the plain version has it.  After every finite
    sequence of public operations of the plain version in which the caller
    reports each access ([updateAccessTime(key, Date.now())] after [get])
    and no [set] has to create its slot (the key is present whenever [set]
    is called, as it is when the loader answers a [get]), every key present
    in the store has a timestamp. *)
Theorem present_keys_are_timed (ops : list op) (g : gset texture) :
  set_finds_slot call_touching ops (init g) = true ->
  forall k,
    exist_in plain k (snd (run call_touching ops (init g))) = true ->
    is_Some (lastAccess k (snd (run call_touching ops (init g)))).
Proof.
  intros Hs k Hk.
  assert (Ht : timed (view (init g))) by (intros k'; discriminate).
  pose proof (timed_run ops (init g) (wf_init g) Ht Hs k) as H.
  rewrite has_view, <- (exist_in_has plain) in H. exact (H Hk).
Qed.

(** C3 at work: after two requests and the load that answers the first,
    each reported, ["a.txt"] has a timestamp. *)
Lemma present_keys_are_timed_witness :
  is_Some (lastAccess "a.txt" (snd (run call_touching two_requests (init ∅)))).
Proof.
  apply (present_keys_are_timed two_requests ∅); reflexivity.
Defined.

(** C3 as it is stated fails in the plain version: after a [set] that no
    [get] preceded the key is present and has no timestamp, and so it is
    after a [get] that the caller does not report. *)
Lemma set_alone_leaves_no_timestamp :
  exist_in plain "a.txt" (snd (run (call plain) unrequested_load (init ∅))) = true /\
  lastAccess "a.txt" (snd (run (call plain) unrequested_load (init ∅))) = None /\
  exist_in plain "a.txt" (snd (call plain (OpGet "a.txt" None None 0) (init ∅))) = true /\
  lastAccess "a.txt" (snd (call plain (OpGet "a.txt" None None 0) (init ∅))) = None.
Proof. repeat split; reflexivity. Qed.

(** ** Every world that calls can reach is well formed *)

Lemma wf_call v o w : wf w -> wf (snd (call v o w)).
Proof.
  intros Hwf. destruct o as [k onload onerror date_now|k data error|k|k|now|re].
  - exact (proj1 (get_in_refines v k onload onerror date_now w Hwf)).
  - exact (proj1 (set_refines v k data error w Hwf)).
  - assumption.
  - pose proof (wf_remove v k w Hwf) as H. now destruct v.
  - destruct v.
    + change (wf (clean_in pooled now w)).
      destruct (clean_in_pooled now w) as [->| ->]; [assumption|].
      now apply (wf_same_shape w).
    + exact (proj1 (clean_refines now w Hwf)).
  - assumption.
Qed.

Lemma wf_run v ops g : wf (snd (run (call v) ops (init g))).
Proof.
  generalize (wf_init g). generalize (init g).
  induction ops as [|o ops IH]; intros w Hwf; simpl; [assumption|].
  apply IH. now apply wf_call.
Qed.

(** ** Where the pooled version throws *)

(** C4 fails in the pooled version.  After [set("a.txt", "text")] the sweep
    at 30000 is not rate limited; it throws [ReferenceError] on the completed
    slot, in its first loop, and [_lastCheckTick] stays 0; so the sweep at
    30001, inside the window of the first, is not rate limited either and
    throws again.  The plain version returns from the first, moves
    [_lastCheckTick] to 30000 and is rate limited at 30001. *)
Lemma pooled_sweep_throws_before_the_stamp :
  let w := Pooled.set "a.txt" (VStr "text") VUndefined (init ∅) in
  Pooled.clean 30000 w = (Thrown (ReferenceError "_lastAccessTime"), w) /\
  _lastCheckTick (snd (Pooled.clean 30000 w)) = 0 /\
  Pooled.clean 30001 (snd (Pooled.clean 30000 w))
    = (Thrown (ReferenceError "_lastAccessTime"), w) /\
  let u := Plain.set "a.txt" (VStr "text") VUndefined (init ∅) in
  _lastCheckTick (Plain.clean 30000 u) = 30000 /\
  Plain.clean 30001 (Plain.clean 30000 u) = Plain.clean 30000 u.
Proof. repeat split; reflexivity. Qed.

(** C5 fails in the pooled version.  ["a.txt"] is loaded and completed; the
    sweep at 150000 is not rate limited; it throws on the slot before any
    key is collected, the key is still present afterwards and nothing has
    been reclaimed.  In the plain version, where the access at 0 has been
    reported, the same sweep evicts the key. *)
Lemma pooled_sweep_evicts_nothing :
  fst (run (call pooled) request_load_sweep (init ∅))
    = [RThrown (ReferenceError "_lastAccessTime"); RVoid;
       RThrown (ReferenceError "_lastAccessTime"); RBool true] /\
  _memoryItemPool (snd (run (call pooled) request_load_sweep (init ∅))) = [] /\
  events (env (snd (run (call pooled) request_load_sweep (init ∅)))) = [] /\
  fst (run call_touching request_load_sweep (init ∅))
    = [RData VNull; RVoid; RVoid; RBool false].
Proof. repeat split; reflexivity. Qed.

(** C7 fails in the pooled version.  [remove] of the present key ["a.txt"]
    frees the file, resets and pools the item, deletes the key from
    [_memory], and throws [ReferenceError] at
    [_lastAccessTime.delete(filename)] instead of returning; [remove] of an
    absent key returns. *)
Lemma pooled_remove_throws :
  let w := Pooled.set "a.txt" (VStr "text") VUndefined (init ∅) in
  fst (Pooled.remove "a.txt" w) = Thrown (ReferenceError "_lastAccessTime") /\
  Pooled.exist "a.txt" (snd (Pooled.remove "a.txt" w)) = false /\
  _memoryItemPool (snd (Pooled.remove "a.txt" w)) = [0%nat] /\
  Pooled.remove "b.txt" w = (Returned tt, w).
Proof. repeat split; reflexivity. Qed.

(** C10 fails in the pooled version.  The slot of ["b.pal"] holds no
    payload after a load that failed; [remove] makes no call into the
    context and deletes the key from [_memory], and then throws
    [ReferenceError] at [_lastAccessTime.delete(filename)]: there is no
    tracker to delete the timestamp from. *)
Lemma pooled_remove_without_payload_throws :
  let w := Pooled.set "b.pal" VNull (VStr "404") (init {[1%nat]}) in
  payload_of "b.pal" w = VNull /\
  fst (Pooled.remove "b.pal" w) = Thrown (ReferenceError "_lastAccessTime") /\
  env (snd (Pooled.remove "b.pal" w)) = env w /\
  Pooled.exist "b.pal" (snd (Pooled.remove "b.pal" w)) = false.
Proof. repeat split; reflexivity. Qed.


(** * Further properties of the code *)

(** ** Reclamation is guarded *)

Lemma released_app evs1 evs2 :
  released (evs1 ++ evs2) = (released evs1 ++ released evs2)%list.
Proof.
  induction evs1 as [|ev evs1 IH]; simpl; [reflexivity|].
  destruct ev; simpl; now rewrite IH.
Qed.

Lemma guarded_app evs1 evs2 : guarded evs1 -> guarded evs2 -> guarded (evs1 ++ evs2).
Proof. intros H1 H2. induction H1; simpl; try constructor; assumption. Qed.

Lemma guarded_no_call evs : guarded evs -> Forall (fun ev => forall f arg, ev <> Call f arg) evs.
Proof. intros H. induction H; repeat constructor; try discriminate; assumption. Qed.

Lemma reclaims_refl e : reclaims e e.
Proof.
  exists []. rewrite app_nil_r. simpl. repeat split; try constructor.
  - intros t Ht. now apply elem_of_nil in Ht.
  - set_solver.
Qed.

Lemma reclaims_trans e1 e2 e3 : reclaims e1 e2 -> reclaims e2 e3 -> reclaims e1 e3.
Proof.
  intros (evs1 & Hev1 & Hg1 & Hn1 & Hs1 & Hgl1) (evs2 & Hev2 & Hg2 & Hn2 & Hs2 & Hgl2).
  exists (evs1 ++ evs2)%list. rewrite released_app. split; [|split; [|split; [|split]]].
  - now rewrite Hev2, Hev1, app_assoc.
  - now apply guarded_app.
  - apply NoDup_app. split; [assumption|]. split; [|assumption].
    intros t Ht1 Ht2. apply Hs2 in Ht2. rewrite Hgl1 in Ht2. set_solver.
  - intros t [Ht|Ht]%elem_of_app; [auto|].
    apply Hs2 in Ht. rewrite Hgl1 in Ht. set_solver.
  - rewrite Hgl2, Hgl1, list_to_set_app_L. set_solver.
Qed.

Lemma delete_if_texture_reclaims t e : reclaims e (delete_if_texture t e).
Proof.
  destruct t as [h|]; [|apply reclaims_refl]. unfold delete_if_texture. simpl.
  destruct (bool_decide (h ∈ gl e)) eqn:E.
  - apply bool_decide_eq_true in E.
    exists [IsTexture h; DeleteTexture h]. simpl. split; [now rewrite <- app_assoc|].
    split; [apply guarded_release, guarded_nil|]. split; [apply NoDup_singleton|]. split.
    + now intros t ->%list_elem_of_singleton.
    + set_solver.
  - exists [IsTexture h]. simpl. split; [reflexivity|].
    split; [repeat constructor|]. split; [constructor|]. split.
    + intros t Ht. now apply elem_of_nil in Ht.
    + set_solver.
Qed.

Lemma frames_reclaim fs e :
  reclaims e (fold_left (fun e fr => delete_if_texture (frame_texture fr) e) fs e).
Proof.
  revert e. induction fs as [|fr fs IH]; intros e; simpl; [apply reclaims_refl|].
  eapply reclaims_trans; [apply delete_if_texture_reclaims | apply IH].
Qed.

Lemma free_file_reclaims ext file e : reclaims e (free_file ext file e).
Proof.
  unfold free_file. destruct (ext =? ".spr")%string.
  - eapply reclaims_trans; [|apply delete_if_texture_reclaims].
    destruct (frames file); [apply frames_reclaim | apply reclaims_refl].
  - destruct (ext =? ".pal")%string; [apply delete_if_texture_reclaims|].
    destruct file; try apply reclaims_refl.
    destruct (match_blob (VStr s)); [|apply reclaims_refl].
    exists [RevokeObjectURL s]. simpl. split; [reflexivity|].
    split; [repeat constructor|]. split; [constructor|]. split.
    + intros t Ht. now apply elem_of_nil in Ht.
    + set_solver.
Qed.

Lemma remove_in_reclaims v k w : reclaims (env w) (env (remove_in v k w)).
Proof.
  rewrite env_remove. unfold reclaim.
  destruct (truthy (payload_of k w)); [apply free_file_reclaims | apply reclaims_refl].
Qed.

(** X1. In the plain version a call of [remove], whatever the key and
    whatever its slot holds, makes guarded calls only: every texture release
    follows at once the liveness query for that texture, and no listener is
    called; it releases only textures that were live when the call began,
    none of them twice, and afterwards the context holds the textures it
    held minus the released ones. *)
Theorem remove_releases_safely (filename : string) (w : World) :
  exists evs,
    events (env (Plain.remove filename w)) = (events (env w) ++ evs)%list /\
    guarded evs /\
    Forall (fun ev => forall f arg, ev <> Call f arg) evs /\
    NoDup (released evs) /\
    (forall t, t ∈ released evs -> t ∈ gl (env w)) /\
    gl (env (Plain.remove filename w)) = gl (env w) ∖ list_to_set (released evs).
Proof.
  destruct (remove_in_reclaims plain filename w) as (evs & H1 & H2 & H3 & H4 & H5).
  exists evs. repeat split; try assumption. now apply guarded_no_call.
Qed.

Lemma fold_reclaims {A} (step : World -> A -> World) (l : list A) w :
  (forall u a, reclaims (env u) (env (step u a))) ->
  reclaims (env w) (env (fold_left step l w)).
Proof.
  intros H. revert w. induction l as [|a l IH]; intros w; simpl; [apply reclaims_refl|].
  eapply reclaims_trans; [apply H | apply IH].
Qed.

Lemma clean_in_reclaims v now w : reclaims (env w) (env (clean_in v now w)).
Proof.
  destruct v.
  - destruct (clean_in_pooled now w) as [->| ->]; apply reclaims_refl.
  - simpl; unfold Plain.clean, Plain.for_of_memory;
      destruct (_lastCheckTick w + _cleanUpInterval >? now); try apply reclaims_refl;
      simpl; apply fold_reclaims; intros u a.
    destruct (JSMap.get a (_memory u)); [|apply reclaims_refl].
    destruct (_ && _); [apply (remove_in_reclaims plain) | apply reclaims_refl].
Qed.

(** X2. A whole sweep of the plain version, in any world, makes guarded
    calls only: no listener is called, every release follows the liveness
    query of its texture, only textures live at the start of the sweep are
    released and none is released twice, even when several evicted sprites
    share a texture. *)
Theorem sweep_releases_safely (now : Z) (w : World) :
  exists evs,
    events (env (Plain.clean now w)) = (events (env w) ++ evs)%list /\
    guarded evs /\
    Forall (fun ev => forall f arg, ev <> Call f arg) evs /\
    NoDup (released evs) /\
    (forall t, t ∈ released evs -> t ∈ gl (env w)) /\
    gl (env (Plain.clean now w)) = gl (env w) ∖ list_to_set (released evs).
Proof.
  destruct (clean_in_reclaims plain now w) as (evs & H1 & H2 & H3 & H4 & H5).
  exists evs. repeat split; try assumption. now apply guarded_no_call.
Qed.

(** ** What is left of the textures of an evicted file *)

Lemma gl_delete_if_texture t e :
  gl (delete_if_texture t e) = gl e ∖ list_to_set (option_list t).
Proof.
  destruct t as [h|]; simpl; [|set_solver].
  destruct (bool_decide (h ∈ gl e)) eqn:E; simpl.
  - set_solver.
  - apply bool_decide_eq_false in E. set_solver.
Qed.

Lemma gl_frames fs e :
  gl (fold_left (fun e fr => delete_if_texture (frame_texture fr) e) fs e)
  = gl e ∖ list_to_set (omap frame_texture fs).
Proof.
  revert e. induction fs as [|fr fs IH]; intros e; simpl; [set_solver|].
  rewrite IH, gl_delete_if_texture.
  destruct (frame_texture fr); simpl; set_solver.
Qed.

Lemma falsy_has_no_texture file :
  truthy file = false -> frames file = None /\ texture_of file = None.
Proof. destruct file; simpl; auto; discriminate. Qed.

(** X3. In the plain version, when the slot of a key whose extension is
    [.spr] (in any case) is removed, the context afterwards holds none of the
    textures of the frames of its file, nor the texture of the file itself,
    and holds every other texture it held; for a [.pal] key only the texture
    of the file itself is taken out, the frames are not looked at. *)
Theorem removal_clears_textures (filename : string) (i : MemoryItem.t) (w : World) :
  entry filename w = Some i ->
  (extension filename = ".spr" ->
     gl (env (Plain.remove filename w))
     = gl (env w) ∖ list_to_set (sprite_textures (MemoryItem.data i))) /\
  (extension filename = ".pal" ->
     gl (env (Plain.remove filename w))
     = gl (env w) ∖ list_to_set (option_list (texture_of (MemoryItem.data i)))).
Proof.
  intros He. change (Plain.remove filename w) with (remove_in plain filename w).
  rewrite env_remove. unfold payload_of. rewrite He. simpl.
  unfold reclaim, sprite_textures.
  destruct (truthy (MemoryItem.data i)) eqn:Et.
  - split; intros ->; unfold free_file; simpl.
    + rewrite gl_delete_if_texture, list_to_set_app_L.
      destruct (frames (MemoryItem.data i)); [rewrite gl_frames|]; set_solver.
    + apply gl_delete_if_texture.
  - destruct (falsy_has_no_texture _ Et) as [-> ->]. simpl. split; intros _; set_solver.
Qed.

(** X3 at work: after the removal of ["A.SPR"], loaded with a sprite whose
    frames use the textures 1, 2, 1 and which has texture 3 itself, the
    context, which held 1 and 3, is empty. *)
Lemma removal_clears_textures_witness :
  gl (env (Plain.remove "A.SPR" (loaded_capital_sprite plain))) = ∅.
Proof.
  destruct (removal_clears_textures "A.SPR"
              (MemoryItem.mk MemoryItem.Loaded sprite [])
              (loaded_capital_sprite plain) eq_refl) as [H _].
  rewrite H; reflexivity.
Defined.

(** ** Blob URLs *)

(** X4. In the plain version, when the slot removed holds a string, the
    only call that can leave the module is one revocation of that string: it
    is made if and only if the extension of the key is neither [.spr] nor
    [.pal] and the string begins with ["blob:"].  A blob URL stored under a
    sprite or palette key is not revoked, and the context is never
    touched. *)
Theorem blob_revocation (filename url : string) (i : MemoryItem.t) (w : World) :
  entry filename w = Some i ->
  MemoryItem.data i = VStr url ->
  env (Plain.remove filename w) =
    if negb (extension filename =? ".spr")%string
       && negb (extension filename =? ".pal")%string
       && String.prefix "blob:" url
    then emit [RevokeObjectURL url] (env w)
    else env w.
Proof.
  intros He Hd. change (Plain.remove filename w) with (remove_in plain filename w).
  rewrite env_remove. unfold payload_of. rewrite He. simpl.
  rewrite Hd. unfold reclaim, free_file. simpl.
  destruct (String.eqb_spec url "") as [->|Hne]; simpl.
  - now rewrite !andb_false_r.
  - destruct (extension filename =? ".spr")%string; [reflexivity|].
    destruct (extension filename =? ".pal")%string; [reflexivity|].
    reflexivity.
Qed.

(** X4 at work on ["c.dat"], loaded as the blob URL ["blob:c"]. *)
Lemma blob_revocation_witness :
  events (env (Plain.remove "c.dat" (loaded_blob plain))) = [RevokeObjectURL "blob:c"].
Proof.
  rewrite (blob_revocation "c.dat" "blob:c"
             (MemoryItem.mk MemoryItem.Loaded (VStr "blob:c") [])
             (loaded_blob plain) eq_refl eq_refl).
  reflexivity.
Defined.

(** ** The extension of a key *)










(** ** Slots are created once and keep their place *)

Lemma slot_in_keys v k w :
  JSMap.keys (_memory (snd (slot_in v k w)))
  = if JSMap.has k (_memory w) then JSMap.keys (_memory w)
    else (JSMap.keys (_memory w) ++ [k])%list.
Proof.
  unfold JSMap.has.
  destruct v; simpl; unfold Pooled.slot, Plain.slot;
    destruct (JSMap.get k (_memory w)) eqn:E; try reflexivity.
  - destruct (_memoryItemPool w); simpl; rewrite keys_set; unfold JSMap.has; now rewrite E.
  - simpl. rewrite keys_set. unfold JSMap.has. now rewrite E.
Qed.

Lemma memory_get_in v k onload onerror date_now w :
  _memory (snd (get_in v k onload onerror date_now w)) = _memory (snd (slot_in v k w)).
Proof.
  destruct v; simpl; unfold Pooled.get, Plain.get;
    [destruct (Pooled.slot k w) | destruct (Plain.slot k w)];
    now destruct onload, onerror.
Qed.

Lemma memory_set_in v k data error w :
  _memory (set_in v k data error w) = _memory (snd (slot_in v k w)).
Proof.
  destruct v; simpl; unfold Pooled.set, Plain.set;
    [destruct (Pooled.slot k w) | destruct (Plain.slot k w)];
    now destruct (truthy error || negb (truthy data)).
Qed.

(** X6. [set] of either version and [get] of the plain version create the
    slot of their key when it is missing, at the end of the map, and change
    the set of keys in no other way: a key that is present keeps its place
    in the insertion order (the order in which [search] lists the keys)
    however often it is requested or loaded, and no call of [get] or [set]
    makes a key disappear. *)
Theorem get_and_set_create_one_slot (v : version) (filename : string)
    (onload onerror : option callback) (data error : value) (w : World) :
  let keys' := if JSMap.has filename (_memory w) then JSMap.keys (_memory w)
               else (JSMap.keys (_memory w) ++ [filename])%list in
  JSMap.keys (_memory (snd (Plain.get filename onload onerror w))) = keys' /\
  JSMap.keys (_memory (set_in v filename data error w)) = keys'.
Proof.
  simpl. rewrite memory_set_in, slot_in_keys.
  pose proof (memory_get_in plain filename onload onerror 0 w) as Hg.
  cbn [get_in snd] in Hg. rewrite Hg, (slot_in_keys plain). auto.
Qed.

(** ** Removal and the other keys *)

(** X7. In the plain version and in a well-formed world the removal of a
    key leaves every other key as it is: present or absent as before, with
    the same slot (state, payload and waiting listeners) and the same
    timestamp; the time of the last sweep does not change either. *)
Theorem remove_leaves_other_keys (k k' : string) (w : World) :
  wf w ->
  k <> k' ->
  Plain.exist k' (Plain.remove k w) = Plain.exist k' w /\
  entry k' (Plain.remove k w) = entry k' w /\
  lastAccess k' (Plain.remove k w) = lastAccess k' w /\
  _lastCheckTick (Plain.remove k w) = _lastCheckTick w.
Proof.
  intros Hwf Hne. change (Plain.remove k w) with (remove_in plain k w).
  split; [now apply (exist_remove_ne plain)|].
  split; [now apply entry_remove_ne|]. split; [now apply lastAccess_remove_ne|].
  destruct (JSMap.get k (_memory w)) as [item|] eqn:E.
  - now destruct (remove_in_present plain _ _ _ E) as (_ & _ & -> & _).
  - now rewrite remove_in_absent.
Qed.

(** X7 at work: removing ["a.txt"] leaves the pending ["b.pal"] with its
    slot and its timestamp. *)
Lemma remove_leaves_other_keys_witness :
  entry "b.pal" (Plain.remove "a.txt" one_loaded_one_pending)
    = Some MemoryItem.new /\
  lastAccess "b.pal" (Plain.remove "a.txt" one_loaded_one_pending) = Some 10.
Proof.
  destruct (remove_leaves_other_keys "a.txt" "b.pal" one_loaded_one_pending)
    as (_ & He & Ht & _).
  - apply (bool_decide_unpack _). vm_compute. exact I.
  - discriminate.
  - rewrite He, Ht. split; reflexivity.
Defined.

(** ** [search] *)

Lemma sublist_List_filter {A} (f : A -> bool) (l : list A) : sublist (List.filter f l) l.
Proof.
  induction l as [|x l IH]; simpl; [constructor|].
  destruct (f x); now constructor.
Qed.

(** X8. In a well-formed world [search(regex)] returns the keys that are
    present and match, and only these, each once, in the order in which
    their slots were created (a sublist of the keys of the map).  In both
    versions. *)
Theorem search_lists_present_matches (v : version) (re : regex) (w : World) :
  wf w ->
  NoDup (search_in v re w) /\
  sublist (search_in v re w) (JSMap.keys (_memory w)) /\
  (forall k, k ∈ search_in v re w <-> exist_in v k w = true /\ re k = true).
Proof.
  intros (Hk & _).
  assert (Hs : search_in v re w = List.filter re (JSMap.keys (_memory w))) by now destruct v.
  rewrite Hs. split; [now apply NoDup_List_filter|]. split; [apply sublist_List_filter|].
  intros k. now rewrite elem_of_List_filter, exist_in_has, has_true.
Qed.

(** X8 at work: of the keys ["a.txt"] and ["b.pal"], a search for the
    palettes finds the second. *)
Lemma search_lists_present_matches_witness :
  "b.pal" ∈ search_in plain (fun k => (extension k =? ".pal")%string) one_loaded_one_pending.
Proof.
  apply (search_lists_present_matches plain _ one_loaded_one_pending).
  - apply (bool_decide_unpack _). vm_compute. exact I.
  - split; reflexivity.
Defined.

(** ** No item is shared, and none is lost *)

Lemma wf_unshared w : wf w -> unshared w.
Proof.
  intros Hwf. split; [|split].
  - intros k k' item. apply refs_distinct, Hwf.
  - intros k item E Hin. destruct Hwf as (_ & Hr & _). unfold refs in Hr.
    apply NoDup_app in Hr as (_ & Hr & _). apply (Hr item); [|assumption].
    apply list_elem_of_fmap. exists (k, item). split; [reflexivity|]. now apply entry_get.
  - destruct Hwf as (_ & Hr & _). unfold refs in Hr. now apply NoDup_app in Hr as (_ & _ & Hr).
Qed.

(** X9. After every sequence of calls from the fresh module, in both
    versions (the calls of the pooled version that throw included), and in
    the plain version with [updateAccessTime] after each [get] as well: no
    [MemoryItem] is held by two keys, none is held by a key and by the pool
    at once, and none is in the pool twice.  So [item.reset()] on a pooled
    item, and the listeners that are added to a recycled item, never reach
    the slot of another key. *)
Theorem no_item_is_shared (v : version) (ops : list op) (g : gset texture) :
  unshared (snd (run (call v) ops (init g))) /\
  unshared (snd (run call_touching ops (init g))).
Proof.
  split; apply wf_unshared.
  - apply wf_run.
  - apply (run_refines ops (init g) (wf_init g)).
Qed.

Lemma conserved_same_shape w u :
  _memory u = _memory w -> _memoryItemPool u = _memoryItemPool w ->
  next_ref u = next_ref w -> conserved w -> conserved u.
Proof. unfold conserved. now intros -> -> ->. Qed.

Lemma conserved_slot k w : conserved w -> conserved (snd (Pooled.slot k w)).
Proof.
  unfold conserved, Pooled.slot. intros H.
  destruct (JSMap.get k (_memory w)) eqn:E; [assumption|].
  destruct (_memoryItemPool w) as [|item pool] eqn:Ep; simpl in *;
    rewrite (set_absent _ _ _ E), length_app, ?Ep; simpl; lia.
Qed.

Lemma length_delete {V} (k : string) (v : V) (m : JSMap.t V) :
  NoDup (JSMap.keys m) -> JSMap.get k m = Some v ->
  length m = S (length (JSMap.delete k m)).
Proof.
  intros Hk E. pose proof (snd_delete_perm _ _ _ Hk E) as Hp.
  apply Permutation_length in Hp. simpl in Hp. now rewrite !length_map in Hp.
Qed.

Lemma conserved_remove k w :
  wf w -> conserved w -> conserved (snd (Pooled.remove k w)).
Proof.
  intros (Hk & _) H. destruct (JSMap.get k (_memory w)) as [item|] eqn:E.
  - rewrite (Pooled_remove_present _ _ _ E). unfold conserved in *. simpl.
    rewrite (length_delete _ _ _ Hk E) in H. lia.
  - now rewrite Pooled_remove_absent.
Qed.

Lemma conserved_call o w :
  wf w -> conserved w -> conserved (snd (call pooled o w)).
Proof.
  intros Hwf H. destruct o as [k onload onerror date_now|k data error|k|k|now|re];
    simpl; try assumption.
  - pose proof (conserved_slot k w H) as Hs. revert Hs.
    unfold Pooled.get. destruct (Pooled.slot k w). simpl.
    apply conserved_same_shape; now destruct onload, onerror.
  - pose proof (conserved_slot k w H) as Hs. revert Hs.
    unfold Pooled.set. destruct (Pooled.slot k w). simpl.
    apply conserved_same_shape; now destruct (truthy error || negb (truthy data)).
  - now apply conserved_remove.
  - change (conserved (clean_in pooled now w)).
    now destruct (clean_in_pooled now w) as [->| ->].
Qed.

(** X10. In the pooled version, after every sequence of calls from the
    fresh module, the calls that throw included, the number of [MemoryItem]
    objects allocated so far is the number of keys in the map plus the size
    of the pool: an object is allocated only when the pool is empty, the
    item of every removed slot is in the pool by the time [remove] throws,
    and no object is ever dropped. *)
Theorem pooled_items_are_conserved (ops : list op) (g : gset texture) :
  conserved (snd (run (call pooled) ops (init g))).
Proof.
  assert (H : conserved (init g)) by reflexivity.
  revert H. generalize (wf_init g). generalize (init g).
  induction ops as [|o ops IH]; intros w Hwf H; simpl; [assumption|].
  apply IH; [now apply wf_call | now apply conserved_call].
Qed.

(** ** Sweeps and the keys that stay *)

Lemma entry_evict_all_out v keys k w :
  wf w -> k ∉ keys -> entry k (evict_all v keys w) = entry k w.
Proof.
  revert w. induction keys as [|k0 keys IH]; intros w Hwf Hout; simpl; [reflexivity|].
  apply not_elem_of_cons in Hout as [Hne Hout].
  fold (evict_all v keys (remove_in v k0 w)).
  rewrite IH by (try apply wf_remove; assumption).
  apply entry_remove_ne; [assumption | congruence].
Qed.

Lemma lastAccess_evict_all_out v keys k w :
  k ∉ keys -> lastAccess k (evict_all v keys w) = lastAccess k w.
Proof.
  revert w. induction keys as [|k0 keys IH]; intros w Hout; simpl; [reflexivity|].
  apply not_elem_of_cons in Hout as [Hne Hout].
  fold (evict_all v keys (remove_in v k0 w)).
  rewrite IH by assumption. apply lastAccess_remove_ne. congruence.
Qed.

Lemma clean_in_cases now w :
  wf w ->
  clean_in plain now w = w \/
  (_lastCheckTick w + _cleanUpInterval <= now /\
   clean_in plain now w = with_lastCheckTick now (evict_all plain (eligible now w) w)).
Proof.
  intros Hwf. destruct (Z.lt_ge_cases now (_lastCheckTick w + _cleanUpInterval)).
  - left. now apply clean_in_limited.
  - right. split; [assumption | now apply clean_in_evicts].
Qed.

(** X11. In the plain version and in a well-formed world a sweep leaves
    every key that survives it untouched: the slot (state, payload, waiting
    listeners) and the timestamp of a key that is present after [clean] are
    what they were before. *)
Theorem sweep_leaves_survivors_untouched (now : Z) (k : string) (w : World) :
  wf w ->
  Plain.exist k (Plain.clean now w) = true ->
  entry k (Plain.clean now w) = entry k w /\
  lastAccess k (Plain.clean now w) = lastAccess k w.
Proof.
  intros Hwf. change (Plain.clean now w) with (clean_in plain now w).
  change Plain.exist with (exist_in plain).
  destruct (clean_in_cases now w Hwf) as [->|[_ ->]]; [auto|].
  intros Hx.
  assert (Hout : k ∉ eligible now w).
  { now apply (exist_evict_all plain (eligible now w) k w). }
  split.
  - rewrite <- (entry_evict_all_out plain (eligible now w) k w Hwf Hout). reflexivity.
  - rewrite <- (lastAccess_evict_all_out plain (eligible now w) k w Hout). reflexivity.
Qed.

(** X11 at work: the sweep at 150000 evicts ["a.txt"], loaded and last
    accessed at 0, and leaves the pending ["b.pal"] as it is. *)
Lemma sweep_leaves_survivors_untouched_witness :
  Plain.exist "a.txt" (Plain.clean 150000 one_loaded_one_pending) = false /\
  entry "b.pal" (Plain.clean 150000 one_loaded_one_pending) = Some MemoryItem.new.
Proof.
  split; [reflexivity|].
  destruct (sweep_leaves_survivors_untouched 150000 "b.pal" one_loaded_one_pending)
    as [He _].
  - apply (bool_decide_unpack _). vm_compute. exact I.
  - reflexivity.
  - rewrite He. reflexivity.
Defined.

Lemma reported_get_result k onload onerror date_now w :
  wf w ->
  let w' := snd (call_touching (OpGet k onload onerror date_now) w) in
  wf w' /\ exist_in plain k w' = true /\ lastAccess k w' = Some date_now.
Proof.
  intros Hwf. destruct (get_refines k onload onerror date_now w Hwf) as (Hwf' & _ & Hv).
  split; [exact Hwf'|]. cbv zeta in Hv |- *.
  split.
  - rewrite exist_in_has, <- has_view, Hv. unfold ByValue.get, ByValue.touch. simpl.
    rewrite !ByValue_listen_keys, ByValue_slot_keys. now rewrite eqb_refl'.
  - unfold lastAccess. change (_lastAccessTime ?u) with (access (view u)).
    rewrite Hv. unfold ByValue.get, ByValue.touch. simpl. apply lookup_insert_eq.
Qed.

(** X12. In the plain version a key that has just been requested, the
    access reported, is safe from the sweep for the whole remember time: in a
    well-formed world, after [get(key, ...)] and [updateAccessTime(key, t)],
    a sweep at any [now] with [now - _rememberTime <= t] keeps the key,
    whatever the state of its slot and whether or not the sweep is rate
    limited. *)
Theorem requested_key_survives_sweep (k : string)
    (onload onerror : option callback) (t now : Z) (w : World) :
  wf w ->
  now - _rememberTime <= t ->
  Plain.exist k
    (Plain.clean now
       (Plain.updateAccessTime k t (snd (Plain.get k onload onerror w)))) = true.
Proof.
  intros Hwf Ht.
  destruct (reported_get_result k onload onerror t w Hwf) as (Hwf' & Hx & Hl).
  cbn [call_touching snd] in Hwf', Hx, Hl.
  change (Plain.clean now ?u) with (clean_in plain now u).
  change Plain.exist with (exist_in plain).
  destruct (clean_in_cases now _ Hwf') as [->|[_ ->]]; [exact Hx|].
  change (exist_in plain k (with_lastCheckTick now ?u)) with (exist_in plain k u).
  apply exist_evict_all. split; [exact Hx|].
  intros Hin. apply elem_of_eligible in Hin as [_ Hi]; [|apply Hwf'].
  apply idle_key_true in Hi as (_ & t' & Ht' & Hlt).
  rewrite Hl in Ht'. injection Ht' as <-. lia.
Qed.

(** X12 at work: ["a.spr"], loaded long ago, is requested again at 140000
    and survives the sweep at 150000. *)
Lemma requested_key_survives_sweep_witness :
  Plain.exist "a.spr"
    (Plain.clean 150000
       (Plain.updateAccessTime "a.spr" 140000
          (snd (Plain.get "a.spr" None None (loaded_sprite plain))))) = true.
Proof.
  apply (requested_key_survives_sweep "a.spr" None None 140000 150000).
  - apply (bool_decide_unpack _). vm_compute. exact I.
  - discriminate.
Defined.

(** ** Timestamps of reported runs *)

Lemma stamped_invoke k method c : stamped c -> stamped (ByValue.invoke k method c).
Proof.
  intros H k'. rewrite ByValue_invoke_keys, ByValue_invoke_access. apply H.
Qed.

Lemma stamped_slot k c : stamped c -> stamped (snd (ByValue.slot k c)).
Proof.
  intros H k'. rewrite ByValue_slot_keys, ByValue_slot_access. intros Hk'.
  rewrite (H k' Hk'). apply orb_true_r.
Qed.

Lemma stamped_remove k c : stamped c -> stamped (ByValue.remove k c).
Proof.
  intros H k'. unfold ByValue.remove.
  destruct (JSMap.get k (entries c)) eqn:E; [|apply H]. simpl.
  destruct (decide (k = k')) as [->|Hne].
  - rewrite lookup_delete_eq. intros [? ?]; discriminate.
  - rewrite has_delete_ne, lookup_delete_ne by assumption. apply H.
Qed.

Lemma stamped_call o c : stamped c -> stamped (snd (ByValue.call o c)).
Proof.
  intros H. destruct o as [k onload onerror date_now|k data error|k|k|now|re];
    simpl; try assumption.
  - unfold ByValue.get, ByValue.touch. cbn [snd]. intros k'. cbn [entries access].
    rewrite !ByValue_listen_keys, ByValue_slot_keys, !ByValue_listen_access,
      ByValue_slot_access.
    destruct (String.eqb_spec k' k) as [->|Hne]; [reflexivity|]. simpl.
    rewrite lookup_insert_ne by congruence. apply H.
  - unfold ByValue.set.
    destruct (truthy error || negb (truthy data)); now apply stamped_invoke, stamped_slot.
  - now apply stamped_remove.
  - unfold ByValue.clean. destruct (lastCheck c + _cleanUpInterval >? now); [assumption|].
    intros k'. simpl.
    generalize (map fst (List.filter (ByValue.idle c (now - _rememberTime)) (entries c))).
    intros keys. revert c H. induction keys as [|k keys IH]; intros c H; simpl; [apply H|].
    apply IH. now apply stamped_remove.
Qed.

(** X13. In the plain version, driven by a caller whose only use of
    [updateAccessTime] is the report after each [get], every timestamp
    belongs to a key that is present: after every sequence of [get] (each
    reported), [set], [exist], [remove], [clean] and [search] from the fresh
    module, a key that has a timestamp exists.  The timestamp map holds
    nothing for keys that were never requested or that have been removed or
    evicted. *)
Theorem reported_timestamps_belong_to_present_keys (ops : list op) (g : gset texture)
    (k : string) :
  is_Some (lastAccess k (snd (run call_touching ops (init g)))) ->
  Plain.exist k (snd (run call_touching ops (init g))) = true.
Proof.
  destruct (run_refines ops (init g) (wf_init g)) as (_ & _ & Hv).
  intros Hs. unfold Plain.exist.
  rewrite <- has_view, Hv.
  assert (Hst : forall ops c, stamped c -> stamped (snd (run ByValue.call ops c))).
  { clear. induction ops as [|o ops IH]; intros c H; simpl; [assumption|].
    apply IH. now apply stamped_call. }
  apply Hst.
  - intros k' [? Hk']. discriminate.
  - rewrite <- Hv. exact Hs.
Qed.

(** X13 at work: after the requests of three keys, the removal of the first
    and the request of a fourth, ["c.dat"] has a timestamp and exists. *)
Lemma reported_timestamps_belong_to_present_keys_witness :
  Plain.exist "c.dat" (snd (run call_touching churn (init ∅))) = true.
Proof.
  apply (reported_timestamps_belong_to_present_keys churn ∅ "c.dat").
  exists 2. reflexivity.
Defined.

(** ** Timestamps and eviction *)

Lemma lastAccess_remove_None k k' w :
  lastAccess k' w = None -> lastAccess k' (remove_in plain k w) = None.
Proof.
  intros H. unfold lastAccess in *.
  destruct (JSMap.get k (_memory w)) as [item|] eqn:E.
  - destruct (remove_in_present plain _ _ _ E) as (_ & -> & _).
    destruct (decide (k = k')) as [->|Hne];
      [apply lookup_delete_eq | now rewrite lookup_delete_ne].
  - now rewrite remove_in_absent.
Qed.

Lemma lastAccess_evict_all_None keys k w :
  lastAccess k w = None -> lastAccess k (evict_all plain keys w) = None.
Proof.
  revert w. induction keys as [|k0 keys IH]; intros w H; simpl; [assumption|].
  apply IH. now apply lastAccess_remove_None.
Qed.

Lemma lastAccess_evict_all_in keys k w :
  exist_in plain k w = true -> k ∈ keys -> lastAccess k (evict_all plain keys w) = None.
Proof.
  revert w. induction keys as [|k0 keys IH]; intros w Hx Hin; simpl.
  - now apply elem_of_nil in Hin.
  - destruct (decide (k0 = k)) as [->|Hne].
    + apply lastAccess_evict_all_None.
      rewrite exist_in_has in Hx. unfold JSMap.has in Hx.
      destruct (JSMap.get k (_memory w)) as [item|] eqn:E; [|discriminate].
      destruct (remove_in_present plain _ _ _ E) as (_ & Ht & _).
      change (lastAccess k (remove_in plain k w) = None).
      unfold lastAccess. rewrite Ht. apply lookup_delete_eq.
    + apply elem_of_cons in Hin as [->|Hin]; [congruence|].
      apply IH; [|assumption]. now rewrite (exist_remove_ne plain).
Qed.

(** X14. A sweep of the plain version drops the timestamp of every key it
    evicts: in a well-formed world, a key that is present before [clean] and
    gone after it has no timestamp left. *)
Theorem sweep_forgets_evicted_keys (now : Z) (k : string) (w : World) :
  wf w ->
  Plain.exist k w = true ->
  Plain.exist k (Plain.clean now w) = false ->
  lastAccess k (Plain.clean now w) = None.
Proof.
  intros Hwf Hx. change (Plain.clean now w) with (clean_in plain now w).
  change Plain.exist with (exist_in plain) in *.
  destruct (clean_in_cases now w Hwf) as [->|[_ ->]]; [congruence|].
  intros Hgone.
  assert (Hin : k ∈ eligible now w).
  { destruct (decide (k ∈ eligible now w)) as [Hin|Hout]; [assumption|].
    assert (exist_in plain k (evict_all plain (eligible now w) w) = true) as Hs
      by (apply exist_evict_all; auto).
    change (exist_in plain k (with_lastCheckTick now ?u)) with (exist_in plain k u)
      in Hgone.
    congruence. }
  exact (lastAccess_evict_all_in (eligible now w) k w Hx Hin).
Qed.

(** X14 at work: after the sweep at 150000, ["a.txt"] has no timestamp. *)
Lemma sweep_forgets_evicted_keys_witness :
  lastAccess "a.txt" (Plain.clean 150000 one_loaded_one_pending) = None.
Proof.
  apply (sweep_forgets_evicted_keys 150000 "a.txt" one_loaded_one_pending).
  - apply (bool_decide_unpack _). vm_compute. exact I.
  - reflexivity.
  - reflexivity.
Defined.

(** X15. In the plain version a timestamp recorded for a key that has no
    slot stays: [updateAccessTime(key, time)] creates no slot, and in a
    well-formed world where the key is absent neither [remove(gl, key)] nor a
    sweep deletes the timestamp again. *)
Theorem timestamp_of_absent_key_stays (k : string) (time now : Z) (w : World) :
  wf w ->
  exist_in plain k w = false ->
  let w' := Plain.updateAccessTime k time w in
  exist_in plain k w' = false /\
  lastAccess k (remove_in plain k w') = Some time /\
  lastAccess k (clean_in plain now w') = Some time.
Proof.
  intros Hwf Hx w'. subst w'.
  assert (Hwf' : wf (Plain.updateAccessTime k time w))
    by (revert Hwf; apply wf_same_shape; reflexivity).
  assert (Ht : lastAccess k (Plain.updateAccessTime k time w) = Some time)
    by (unfold lastAccess; simpl; apply lookup_insert_eq).
  split; [exact Hx|]. split.
  - rewrite remove_in_absent; [exact Ht|]. now apply has_false.
  - destruct (clean_in_cases now _ Hwf') as [->|[_ ->]]; [exact Ht|].
    rewrite <- Ht.
    apply (lastAccess_evict_all_out plain).
    intros Hin. apply elem_of_eligible in Hin as [Hin _]; [|apply Hwf'].
    simpl in Hin, Hx. unfold Plain.exist in Hx. congruence.
Qed.

(** X15 at work: a timestamp for ["zzz"], which was never requested,
    outlives the sweep at 150000. *)
Lemma timestamp_of_absent_key_stays_witness :
  lastAccess "zzz"
    (clean_in plain 150000 (Plain.updateAccessTime "zzz" 0 one_loaded_one_pending))
  = Some 0.
Proof.
  apply (timestamp_of_absent_key_stays "zzz" 0 150000 one_loaded_one_pending).
  - apply (bool_decide_unpack _). vm_compute. exact I.
  - reflexivity.
Defined.

(** ** The pooled version up to its throws *)

(** X20. [get] of the pooled version throws [ReferenceError] on every call,
    whatever the key, the listeners and the state of the module: the name
    [_lastAccessTime] is bound nowhere in that version.  By then the call has
    found or created the slot and registered the listeners: in a well-formed
    world it leaves a well-formed world in which the key is present, and the
    slots by key, the timestamps, the time of the last sweep, the context and
    the calls made are the ones that [get] of the plain version leaves. *)
Theorem pooled_get_always_throws (filename : string) (onload onerror : option callback)
    (w : World) :
  fst (Pooled.get filename onload onerror w) = Thrown (ReferenceError "_lastAccessTime") /\
  (wf w ->
   wf (snd (Pooled.get filename onload onerror w)) /\
   Pooled.exist filename (snd (Pooled.get filename onload onerror w)) = true /\
   view (snd (Pooled.get filename onload onerror w))
   = view (snd (Plain.get filename onload onerror w))).
Proof.
  split.
  - unfold Pooled.get. now destruct (Pooled.slot filename w).
  - intros Hwf.
    destruct (get_in_refines pooled filename onload onerror 0 w Hwf) as (H1 & H2 & _).
    destruct (get_in_refines plain filename onload onerror 0 w Hwf) as (_ & H3 & _).
    cbn [get_in fst snd] in H1, H2, H3.
    split; [exact H1|]. split; [|congruence].
    unfold Pooled.exist.
    rewrite <- has_view, H2, !ByValue_listen_keys, ByValue_slot_keys.
    now rewrite eqb_refl'.
Qed.

(** X21. [remove] of the pooled version, called in a well-formed world on a
    key that is present, throws [ReferenceError] at
    [_lastAccessTime.delete(filename)], its last statement.  By then the
    removal is done: the key is absent, the item of its slot has been reset
    and is the last element of the pool, what the file held has been
    reclaimed, every other key is present or absent as before and has the
    slot it had, and the world is well formed. *)
Theorem pooled_remove_of_present_key (filename : string) (w : World) :
  wf w ->
  Pooled.exist filename w = true ->
  let r := Pooled.remove filename w in
  fst r = Thrown (ReferenceError "_lastAccessTime") /\
  wf (snd r) /\
  Pooled.exist filename (snd r) = false /\
  (exists item,
     JSMap.get filename (_memory w) = Some item /\
     _memoryItemPool (snd r) = item :: _memoryItemPool w /\
     deref (snd r) item = MemoryItem.new) /\
  env (snd r) = reclaim filename (payload_of filename w) (env w) /\
  (forall k, k <> filename ->
     Pooled.exist k (snd r) = Pooled.exist k w /\ entry k (snd r) = entry k w).
Proof.
  intros Hwf Hx r. subst r. unfold Pooled.exist, JSMap.has in Hx.
  destruct (JSMap.get filename (_memory w)) as [item|] eqn:E; [|discriminate].
  split; [now rewrite (Pooled_remove_present _ _ _ E)|].
  split; [exact (wf_remove pooled filename w Hwf)|].
  split; [|split; [|split]].
  - rewrite (Pooled_remove_present _ _ _ E). apply has_delete_eq.
  - exists item. rewrite (Pooled_remove_present _ _ _ E). split; [reflexivity|].
    split; [reflexivity|]. unfold deref. simpl. now rewrite lookup_insert_eq.
  - exact (env_remove pooled filename w).
  - intros k Hne. split.
    + apply (exist_remove_ne pooled). congruence.
    + apply (entry_remove_ne pooled); [assumption | congruence].
Qed.

(** X21 at work: the removal of ["a.spr"], loaded with a sprite, throws;
    the key is gone, and the live textures 1 and 3 have been released. *)
Lemma pooled_remove_of_present_key_witness :
  fst (Pooled.remove "a.spr" (loaded_sprite pooled))
    = Thrown (ReferenceError "_lastAccessTime") /\
  Pooled.exist "a.spr" (snd (Pooled.remove "a.spr" (loaded_sprite pooled))) = false /\
  gl (env (snd (Pooled.remove "a.spr" (loaded_sprite pooled)))) = ∅.
Proof.
  destruct (pooled_remove_of_present_key "a.spr" (loaded_sprite pooled))
    as (H1 & _ & H2 & _ & H3 & _).
  - apply (bool_decide_unpack _). vm_compute. exact I.
  - reflexivity.
  - split; [exact H1|]. split; [exact H2|]. rewrite H3. reflexivity.
Defined.

Lemma existsb_completed w :
  distinct_keys w ->
  existsb (fun e => MemoryItem.complete (deref w (snd e))) (_memory w) = true <->
  exists k, completed k w.
Proof.
  intros Hk. rewrite existsb_exists. unfold completed, entry. split.
  - intros ([k item] & Hin & Hc). exists k, (deref w item). split; [|exact Hc].
    apply list_elem_of_In in Hin. now rewrite (get_entry _ _ _ Hk Hin).
  - intros (k & i & He & Hc).
    destruct (JSMap.get k (_memory w)) as [item|] eqn:E; [|discriminate].
    injection He as <-. exists (k, item). split; [|exact Hc].
    apply list_elem_of_In. now apply entry_get.
Qed.

(** X22. The sweep of the pooled version never evicts: in a well-formed
    world, whatever [now], it leaves the map, the pool, the items, the
    context and the calls made as they are.  It throws [ReferenceError] if
    and only if it is not rate limited and some slot is completed, and then
    [_lastCheckTick] keeps its value; when it returns without being rate
    limited, no slot being completed, [_lastCheckTick] is [now]. *)
Theorem pooled_sweep_never_evicts (now : Z) (w : World) :
  wf w ->
  let r := Pooled.clean now w in
  _memory (snd r) = _memory w /\
  _memoryItemPool (snd r) = _memoryItemPool w /\
  heap (snd r) = heap w /\
  env (snd r) = env w /\
  (fst r = Thrown (ReferenceError "_lastAccessTime") <->
   _lastCheckTick w + _cleanUpInterval <= now /\ exists k, completed k w) /\
  (fst r = Thrown (ReferenceError "_lastAccessTime") ->
   _lastCheckTick (snd r) = _lastCheckTick w) /\
  (fst r = Returned tt -> _lastCheckTick w + _cleanUpInterval <= now ->
   _lastCheckTick (snd r) = now).
Proof.
  intros (Hk & _) r. subst r. rewrite Pooled_clean.
  pose proof (existsb_completed w Hk) as Hc.
  destruct (Z.gtb_spec (_lastCheckTick w + _cleanUpInterval) now) as [Hlt|Hge].
  - repeat split; try reflexivity; try discriminate; simpl; intros; lia.
  - destruct (existsb _ (_memory w)).
    + repeat split; try reflexivity; try discriminate; try assumption.
      now apply Hc.
    + repeat split; try reflexivity; try discriminate.
      intros [_ H]. apply Hc in H. discriminate.
Qed.

(** X22 at work: the sweep at 150000 of the world in which ["a.txt"] is
    loaded throws, and the key stays. *)
Lemma pooled_sweep_never_evicts_witness :
  fst (Pooled.clean 150000 (loaded_text pooled))
    = Thrown (ReferenceError "_lastAccessTime") /\
  Pooled.exist "a.txt" (snd (Pooled.clean 150000 (loaded_text pooled))) = true.
Proof.
  destruct (pooled_sweep_never_evicts 150000 (loaded_text pooled))
    as (Hm & _ & _ & _ & [_ Ht] & _).
  - apply (bool_decide_unpack _). vm_compute. exact I.
  - split.
    + apply Ht. split; [discriminate|].
      exists "a.txt". eexists. split; reflexivity.
    + unfold Pooled.exist. rewrite Hm. reflexivity.
Defined.

(** ** The two versions side by side *)

Lemma ByValue_slot_same k c c' :
  same_cache c c' -> same_cache (snd (ByValue.slot k c)) (snd (ByValue.slot k c')).
Proof.
  intros (He & Ho). unfold ByValue.slot. rewrite He.
  destruct (JSMap.get k (entries c')); unfold same_cache; simpl; repeat split; congruence.
Qed.

Lemma ByValue_invoke_same k method c c' :
  same_cache c c' ->
  same_cache (ByValue.invoke k method c) (ByValue.invoke k method c').
Proof.
  intros (He & Ho). unfold ByValue.invoke. rewrite He.
  destruct (JSMap.get k (entries c')); unfold same_cache; simpl; repeat split; congruence.
Qed.

Lemma ByValue_listen_same k kd f c c' :
  same_cache c c' -> same_cache (ByValue.listen k kd f c) (ByValue.listen k kd f c').
Proof. destruct f; [apply ByValue_invoke_same | trivial]. Qed.

Lemma ByValue_set_same k data error c c' :
  same_cache c c' ->
  same_cache (ByValue.set k data error c) (ByValue.set k data error c').
Proof.
  intros H. unfold ByValue.set.
  destruct (truthy error || negb (truthy data));
    now apply ByValue_invoke_same, ByValue_slot_same.
Qed.

Lemma ByValue_remove_same k c c' :
  same_cache c c' -> same_cache (ByValue.remove k c) (ByValue.remove k c').
Proof.
  intros (He & Ho). unfold ByValue.remove. rewrite He.
  destruct (JSMap.get k (entries c')); unfold same_cache; simpl; repeat split; congruence.
Qed.

Lemma ByValue_set_access k data error c :
  access (ByValue.set k data error c) = access c.
Proof.
  unfold ByValue.set.
  destruct (truthy error || negb (truthy data));
    now rewrite ByValue_invoke_access, ByValue_slot_access.
Qed.

(** The store that [remove] of the pooled version leaves is the one that
    the removal by value leaves, but for the timestamps, which it does not
    reach. *)
Lemma remove_in_pooled_view k w :
  wf w ->
  entries (view (remove_in pooled k w)) = entries (ByValue.remove k (view w)) /\
  _lastAccessTime (remove_in pooled k w) = _lastAccessTime w /\
  env (remove_in pooled k w) = outside (ByValue.remove k (view w)).
Proof.
  intros Hwf. destruct (JSMap.get k (_memory w)) as [item|] eqn:E.
  - assert (Hr : ByValue.remove k (view w)
                 = mkCache (JSMap.delete k (entries (view w)))
                     (base.delete k (access (view w))) (lastCheck (view w))
                     (reclaim k (MemoryItem.data (deref w item)) (outside (view w)))).
    { unfold ByValue.remove. now rewrite get_view, (entry_Some _ _ _ E). }
    rewrite Hr.
    pose proof (view_deleted k item w (remove_in pooled k w) Hwf E) as Hv.
    rewrite (remove_in_pooled _ _ _ E) in Hv |- *.
    rewrite Hv; [now split | reflexivity | right; now exists MemoryItem.new].
  - rewrite (remove_in_absent pooled _ _ E). unfold ByValue.remove.
    rewrite get_view. unfold entry. rewrite E. now split.
Qed.

Lemma eligible_untimed now w : _lastAccessTime w = ∅ -> eligible now w = [].
Proof.
  intros H. unfold eligible.
  replace (List.filter (Plain.idle w (now - _rememberTime)) (_memory w))
    with (@nil (string * ref)); [reflexivity|].
  induction (_memory w) as [|e m IH]; simpl; [reflexivity|].
  unfold Plain.idle at 1. rewrite H, lookup_empty. simpl.
  now rewrite andb_false_r.
Qed.

(** One call of each version, from worlds that hold the same store, the
    plain one without timestamps. *)
Lemma call_same o wp wq :
  wf wp -> wf wq -> same_store wp wq -> _lastAccessTime wq = ∅ ->
  same_or_thrown (fst (call pooled o wp)) (fst (call plain o wq)) /\
  same_store (snd (call pooled o wp)) (snd (call plain o wq)) /\
  _lastAccessTime (snd (call plain o wq)) = ∅.
Proof.
  intros Hp Hq Hs Ha. unfold same_store in *.
  destruct o as [k onload onerror date_now|k data error|k|k|now|re].
  - destruct (get_in_refines pooled k onload onerror date_now wp Hp) as (_ & Hvp & Hrp).
    destruct (get_in_refines plain k onload onerror date_now wq Hq) as (_ & Hvq & _).
    cbv zeta in Hvp, Hrp, Hvq. cbn [call fst snd]. rewrite Hrp, Hvp, Hvq.
    split; [right; now eexists|]. split.
    + now apply ByValue_listen_same, ByValue_listen_same, ByValue_slot_same.
    + change (_lastAccessTime ?u) with (access (view u)). rewrite Hvq.
      now rewrite !ByValue_listen_access, ByValue_slot_access.
  - cbn [call fst snd].
    rewrite (proj2 (set_refines pooled k data error wp Hp)),
      (proj2 (set_refines plain k data error wq Hq)).
    split; [now left|]. split; [now apply ByValue_set_same|].
    change (_lastAccessTime ?u) with (access (view u)).
    now rewrite (proj2 (set_refines plain k data error wq Hq)), ByValue_set_access.
  - cbn [call fst snd]. split; [|split; assumption]. left.
    simpl. unfold Pooled.exist, Plain.exist.
    rewrite <- (has_view k wp), <- (has_view k wq).
    now rewrite (proj1 Hs).
  - destruct (remove_in_pooled_view k wp Hp) as (He & Ht & Hv).
    pose proof (remove_refines k wq Hq) as Hvq.
    pose proof (ByValue_remove_same k _ _ Hs) as Hr.
    assert (Hempty : access (ByValue.remove k (view wq)) = ∅).
    { unfold ByValue.remove. destruct (JSMap.get k (entries (view wq))); simpl;
        rewrite Ha; [apply delete_empty | reflexivity]. }
    cbn [call fst snd remove_call].
    change (snd (Pooled.remove k wp)) with (remove_in pooled k wp).
    change (Plain.remove k wq) with (remove_in plain k wq).
    split; [|split].
    + destruct (JSMap.get k (_memory wp)) as [item|] eqn:E.
      * right. rewrite (Pooled_remove_present _ _ _ E). now eexists.
      * left. now rewrite (Pooled_remove_absent _ _ E).
    + rewrite Hvq. destruct Hr as (Hre & Hro). split.
      * now rewrite He.
      * cbn [outside view]. now rewrite Hv.
    + change (_lastAccessTime ?u) with (access (view u)). now rewrite Hvq.
  - cbn [call fst snd clean_call].
    change (Plain.clean now wq) with (clean_in plain now wq).
    assert (Hq' : clean_in plain now wq = wq \/
                  clean_in plain now wq = with_lastCheckTick now wq).
    { destruct (clean_in_cases now wq Hq) as [->|[_ ->]]; [now left|right].
      now rewrite (eligible_untimed now wq Ha). }
    rewrite Pooled_clean.
    assert (Hgoal : forall wp' wq',
              (wp' = wp \/ wp' = with_lastCheckTick now wp) ->
              (wq' = wq \/ wq' = with_lastCheckTick now wq) ->
              same_cache (view wp') (view wq') /\ _lastAccessTime wq' = ∅).
    { intros wp' wq' [->| ->] [->| ->]; split; assumption. }
    destruct (_ >? _); [|destruct (existsb _ _)]; cbn [fst snd answer];
      (split; [first [now left | right; now eexists]|]); apply Hgoal; auto.
  - cbn [call fst snd]. split; [|split; assumption]. left.
    simpl. unfold Pooled.search, Plain.search.
    rewrite <- (keys_view wp), <- (keys_view wq).
    now rewrite (proj1 Hs).
Qed.

Lemma run_same ops wp wq :
  wf wp -> wf wq -> same_store wp wq -> _lastAccessTime wq = ∅ ->
  Forall2 same_or_thrown (fst (run (call pooled) ops wp)) (fst (run (call plain) ops wq)) /\
  same_store (snd (run (call pooled) ops wp)) (snd (run (call plain) ops wq)) /\
  _lastAccessTime (snd (run (call plain) ops wq)) = ∅.
Proof.
  revert wp wq. induction ops as [|o ops IH]; intros wp wq Hp Hq Hs Ha; simpl.
  - split; [constructor|]. split; assumption.
  - destruct (call_same o wp wq Hp Hq Hs Ha) as (Hr & Hs' & Ha').
    destruct (IH _ _ (wf_call pooled o wp Hp) (wf_call plain o wq Hq) Hs' Ha')
      as (Hrs & Hs'' & Ha'').
    split; [now constructor|]. split; assumption.
Qed.

(** X23. The two versions side by side.  On every sequence of [get],
    [set], [exist], [remove], [clean] and [search] from the fresh module, in
    any context, each call of the pooled version returns what the same call
    of the plain version returns, or throws; and whether it returns or
    throws, both versions hold the same slots by key in the same order, the
    same context and the same record of calls made, at the end (and, a
    prefix of a sequence being a sequence, after each call).  The timestamp
    map of the plain version is empty throughout: none of the six operations
    writes it. *)
Theorem versions_agree_up_to_throws (ops : list op) (g : gset texture) :
  Forall2 same_or_thrown
    (fst (run (call pooled) ops (init g))) (fst (run (call plain) ops (init g))) /\
  same_store (snd (run (call pooled) ops (init g))) (snd (run (call plain) ops (init g))) /\
  _lastAccessTime (snd (run (call plain) ops (init g))) = ∅.
Proof.
  apply run_same; try apply wf_init; [repeat split | reflexivity].
Qed.
